(** * Chain of Responsibility: the handlers of [chain-of-responsibility/main.py]

    The Python program builds a linked chain of handler objects
    (Monkey > Squirrel > Dog) and dispatches requests through it.
    Handler objects are mutable and referenced by identity, so the
    embedding keeps an explicit object store: every method is a
    computation over that store, in a small state-and-exception monad. *)

From Stdlib Require Import ZArith DecimalString.
From stdpp Require Import base option list strings gmap sorting.

Open Scope string_scope.
Open Scope list_scope.
Open Scope nat_scope.

(** ** Python values that a request can be *)

(** What an [__eq__] method gets to see of its other operand: a built-in
    value, or that it is an object of some other class. *)
Inductive atom : Type :=
| ANone
| ABool (b : bool)
| AInt (z : Z)
| AStr (s : string)
| AObject.

(** [handle(self, request)] takes any object.  A request is a built-in
    value or an object of a class of the caller's, given by what its
    [__eq__] answers and by its [str()]. *)
Inductive value : Type :=
| VNone
| VBool (b : bool)
| VInt (z : Z)
| VStr (s : string)
| VObject (eq_ : atom → bool) (str_ : string).

Definition atom_of (v : value) : atom :=
  match v with
  | VNone => ANone
  | VBool b => ABool b
  | VInt z => AInt z
  | VStr s => AStr s
  | VObject _ _ => AObject
  end.

(** The values of the built-in types. *)
Definition builtin (v : value) : bool :=
  match v with
  | VObject _ _ => false
  | _ => true
  end.

Definition int_of_bool (b : bool) : Z := if b then 1%Z else 0%Z.

(** [a == b]: [None] equals only itself, [bool] is a subtype of [int]
    and compares by number, a [str] equals only the same [str]; when an
    operand is an object with its own [__eq__], that method decides (the
    left operand's first; a built-in left operand defers to the right
    one). *)
Definition py_eq (a b : value) : bool :=
  match a, b with
  | VObject e _, _ => e (atom_of b)
  | _, VObject e _ => e (atom_of a)
  | VNone, VNone => true
  | VBool x, VBool y => Z.eqb (int_of_bool x) (int_of_bool y)
  | VBool x, VInt y => Z.eqb (int_of_bool x) y
  | VInt x, VBool y => Z.eqb x (int_of_bool y)
  | VInt x, VInt y => Z.eqb x y
  | VStr s, VStr t => String.eqb s t
  | _, _ => false
  end.

(** [f"{v}"]: the [str()] of a value. *)
Definition py_format (v : value) : string :=
  match v with
  | VNone => "None"
  | VBool true => "True"
  | VBool false => "False"
  | VInt z => NilZero.string_of_int (Z.to_int z)
  | VStr s => s
  | VObject _ s => s
  end.


(** ** Objects and the store *)

(** The three concrete classes; all derive from [AbstractHandler]. *)
Inductive HandlerClass : Type :=
| MonkeyHandler
| SquirrelHandler
| DogHandler.

#[global] Instance HandlerClass_eq_dec : EqDecision HandlerClass.
Proof. solve_decision. Defined.

Definition ref : Type := nat.

(** A handler object.  [_next_handler] reads the instance attribute when
    [set_next] has assigned it and the class attribute
    [AbstractHandler._next_handler = None] otherwise; the class attribute
    is never assigned, so one optional field covers both. *)
Record object : Type := Object {
  cls : HandlerClass;
  _next_handler : option ref
}.

#[global] Instance object_eq_dec : EqDecision object.
Proof. solve_decision. Defined.

(** The program state: the object store, what was printed, and a ghost
    log of the [handle] calls made so far (receiver and argument, in call
    order).  The log is not read by any method; it only lets theorems
    speak about which handlers were invoked. *)
Record state : Type := State {
  heap : gmap ref object;
  stdout : list string;
  calls : list (ref * value)
}.

(** ** The monad of method bodies *)

Inductive result (A : Type) : Type :=
| Return (a : A)
| RecursionError
| NoObject.
Arguments Return {A} a.
Arguments RecursionError {A}.
Arguments NoObject {A}.

Definition M (A : Type) : Type := state → result A * state.

#[global] Instance M_ret : MRet M := λ A a σ, (Return a, σ).

#[global] Instance M_bind : MBind M := λ A B f m σ,
  match m σ with
  | (Return a, σ') => f a σ'
  | (RecursionError, σ') => (RecursionError, σ')
  | (NoObject, σ') => (NoObject, σ')
  end.

Definition raise_RecursionError {A} : M A := λ σ, (RecursionError, σ).

(** Reading an object through a reference.  Python references never
    dangle; [NoObject] is the model's answer for a reference outside the
    store and is unreachable from a closed store (see [closed]). *)
Definition deref (r : ref) : M object := λ σ,
  match heap σ !! r with
  | Some o => (Return o, σ)
  | None => (NoObject, σ)
  end.

Definition setattr_next_handler (self : ref) (handler : option ref) : M () := λ σ,
  match heap σ !! self with
  | Some o =>
      (Return (),
       State (<[self := Object (cls o) handler]> (heap σ)) (stdout σ) (calls σ))
  | None => (NoObject, σ)
  end.

(** [print(s, end=end_)]: one write to standard output. *)
Definition print (s : string) (end_ : string) : M () := λ σ,
  (Return (), State (heap σ) (stdout σ ++ [s +:+ end_]) (calls σ)).

(** Ghost: record that [self.handle(request)] was entered. *)
Definition enter (self : ref) (request : value) : M () := λ σ,
  (Return (), State (heap σ) (stdout σ) (calls σ ++ [(self, request)])).

(** [C()] for a concrete class [C]: a fresh object, no instance attribute. *)
Definition new (c : HandlerClass) : M ref := λ σ,
  let r := fresh (dom (heap σ)) in
  (Return r, State (<[r := Object c None]> (heap σ)) (stdout σ) (calls σ)).

(** ** The methods *)

(** [AbstractHandler.set_next] *)
Definition set_next (self : ref) (handler : ref) : M ref :=
  _ ← setattr_next_handler self (Some handler);
  mret handler.

Section methods.
(** [h.handle(request)] on another object, resolved by its class one
    call deeper. *)
Variable handle : ref → value → M (option string).

(** [AbstractHandler.handle] *)
Definition AbstractHandler_handle (self : ref) (request : value)
  : M (option string) :=
  o ← deref self;
  match _next_handler o with
  | Some next => handle next request
  | None => mret None
  end.

(** [MonkeyHandler.handle] *)
Definition MonkeyHandler_handle (self : ref) (request : value)
  : M (option string) :=
  if py_eq request (VStr "Banana")
  then mret (Some ("Monkey: I'll eat the " +:+ py_format request))
  else AbstractHandler_handle self request.

(** [SquirrelHandler.handle] *)
Definition SquirrelHandler_handle (self : ref) (request : value)
  : M (option string) :=
  if py_eq request (VStr "Nut")
  then mret (Some ("Squirrel: I'll eat the " +:+ py_format request))
  else AbstractHandler_handle self request.

(** [DogHandler.handle] *)
Definition DogHandler_handle (self : ref) (request : value)
  : M (option string) :=
  if py_eq request (VStr "MeatBall")
  then mret (Some ("Dog: I'll eat the " +:+ py_format request))
  else AbstractHandler_handle self request.

Definition method_handle (c : HandlerClass)
  : ref → value → M (option string) :=
  match c with
  | MonkeyHandler => MonkeyHandler_handle
  | SquirrelHandler => SquirrelHandler_handle
  | DogHandler => DogHandler_handle
  end.
End methods.

(** [self.handle(request)].  [depth] is how many nested [handle] calls
    the interpreter still allows; a call with none left raises
    [RecursionError], which is how dispatch on a cyclic chain ends. *)
Fixpoint handle (depth : nat) (self : ref) (request : value)
  : M (option string) :=
  match depth with
  | 0 => raise_RecursionError
  | S d =>
      o ← deref self;
      _ ← enter self request;
      method_handle (handle d) (cls o) self request
  end.

(** ** The client *)

Definition newline : string := String (Ascii.ascii_of_nat 10) EmptyString.

(** One iteration of the loop of [client_code]. *)
Definition client_step (depth : nat) (handler : ref) (food : string) : M () :=
  _ ← print (newline +:+ "Client: Who wants a " +:+ food +:+ "?") newline;
  result ← handle depth handler (VStr food);
  match result with
  | Some (String _ _ as r) => print (" " +:+ r) EmptyString
  | _ => print (" " +:+ food +:+ " was left untouched.") EmptyString
  end.

Definition client_code (depth : nat) (handler : ref) : M () :=
  _ ← client_step depth handler "Nut";
  _ ← client_step depth handler "Banana";
  client_step depth handler "Cup of coffee".

(** The construction at the start of [__main__]:
    three handlers and [monkey.set_next(squirrel).set_next(dog)]. *)
Definition build_chain : M (ref * ref * ref) :=
  monkey ← new MonkeyHandler;
  squirrel ← new SquirrelHandler;
  dog ← new DogHandler;
  h ← set_next monkey squirrel;
  _ ← set_next h dog;
  mret (monkey, squirrel, dog).

Definition main (depth : nat) : M () :=
  '(monkey, squirrel, dog) ← build_chain;
  _ ← print "Chain: Monkey > Squirrel > Dog" newline;
  _ ← client_code depth monkey;
  _ ← print newline newline;
  _ ← print "Subchain: Squirrel > Dog" newline;
  client_code depth squirrel.

Definition initial : state := State ∅ [] [].

(** ** The table view of the concrete classes *)

Definition trigger (c : HandlerClass) : string :=
  match c with
  | MonkeyHandler => "Banana"
  | SquirrelHandler => "Nut"
  | DogHandler => "MeatBall"
  end.

Definition name (c : HandlerClass) : string :=
  match c with
  | MonkeyHandler => "Monkey"
  | SquirrelHandler => "Squirrel"
  | DogHandler => "Dog"
  end.

(** The acknowledgment of a handler of class [c] for request [v]. *)
Definition ack (c : HandlerClass) (v : value) : string :=
  name c +:+ ": I'll eat the " +:+ py_format v.

(** ** Chains *)

(** [is_chain h r rest]: in store [h] the successor links starting at
    [r] pass through exactly [rest], in order, and the last handler has
    no successor.  Such a path is finite and never returns to a handler
    it has left (see [is_chain_NoDup]). *)
Fixpoint is_chain (h : gmap ref object) (r : ref) (rest : list ref) : bool :=
  match h !! r with
  | None => false
  | Some o =>
      match _next_handler o, rest with
      | None, [] => true
      | Some n, n' :: rest' => bool_decide (n = n') && is_chain h n' rest'
      | _, _ => false
      end
  end.

(** Every successor link of the store points to an object of the store. *)
Definition closed (h : gmap ref object) : Prop :=
  ∀ r o n, h !! r = Some o → _next_handler o = Some n → is_Some (h !! n).

(** The state right after [self.handle(request)] has been entered. *)
Definition entered (self : ref) (request : value) (σ : state) : state :=
  State (heap σ) (stdout σ) (calls σ ++ [(self, request)]).

(** The receivers of the calls logged by going from [σ] to [σ']. *)
Definition called_between (σ σ' : state) : list ref :=
  (drop (length (calls σ)) (calls σ')).*1.

(** ** Dispatch as a pure function of the store *)

(** The outcome of [self.handle(v)] and the handlers entered, in order,
    computed from the store alone. *)
Fixpoint run (depth : nat) (h : gmap ref object) (self : ref) (v : value)
  : result (option string) * list ref :=
  match depth with
  | 0 => (RecursionError, [])
  | S d =>
      match h !! self with
      | None => (NoObject, [])
      | Some o =>
          if py_eq v (VStr (trigger (cls o)))
          then (Return (Some (ack (cls o) v)), [self])
          else match _next_handler o with
               | Some n => let p := run d h n v in (p.1, self :: p.2)
               | None => (Return None, [self])
               end
      end
  end.

(** The same along a list of handlers standing for a chain. *)
Fixpoint first_match (h : gmap ref object) (v : value) (l : list ref)
  : option string :=
  match l with
  | [] => None
  | r :: l' =>
      match h !! r with
      | Some o =>
          if py_eq v (VStr (trigger (cls o)))
          then Some (ack (cls o) v)
          else first_match h v l'
      | None => None
      end
  end.

Fixpoint visited (h : gmap ref object) (v : value) (l : list ref) : list ref :=
  match l with
  | [] => []
  | r :: l' =>
      match h !! r with
      | Some o =>
          if py_eq v (VStr (trigger (cls o))) then [r] else r :: visited h v l'
      | None => [r]
      end
  end.

(** The store and handles of the reference configuration
    Monkey > Squirrel > Dog. *)
Definition reference : state := (build_chain initial).2.
Definition monkey : ref := 0.
Definition squirrel : ref := 1.
Definition dog : ref := 2.

(** [self.set_next(a); self.set_next(b)] *)
Definition set_next_twice (self a b : ref) : M ref :=
  _ ← set_next self a;
  set_next self b.

(** Three handlers of which only the squirrel is linked, to the dog. *)
Definition build_squirrel_dog : M () :=
  monkey ← new MonkeyHandler;
  squirrel ← new SquirrelHandler;
  dog ← new DogHandler;
  _ ← set_next squirrel dog;
  mret ().

Definition squirrel_dog : state := (build_squirrel_dog initial).2.

(** A handler linked to itself. *)
Definition build_loop : M ref :=
  monkey ← new MonkeyHandler;
  set_next monkey monkey.

Definition loop : state := (build_loop initial).2.

(** Two monkeys with a squirrel between them:
    [first.set_next(squirrel).set_next(second)]. *)
Definition build_two_monkeys : M (ref * ref * ref) :=
  first ← new MonkeyHandler;
  squirrel ← new SquirrelHandler;
  second ← new MonkeyHandler;
  h ← set_next first squirrel;
  _ ← set_next h second;
  mret (first, squirrel, second).

Definition two_monkeys : state := (build_two_monkeys initial).2.

(** A monkey and a squirrel, not linked. *)
Definition build_two_unlinked : M () :=
  monkey ← new MonkeyHandler;
  squirrel ← new SquirrelHandler;
  mret ().

Definition two_unlinked : state := (build_two_unlinked initial).2.

(** ** What the client writes *)

(** The first write of an iteration of [client_code]. *)
Definition question (food : string) : string :=
  (newline +:+ "Client: Who wants a " +:+ food +:+ "?") +:+ newline.

(** The second write, for the value [result] that [handle] returned. *)
Definition reply (food : string) (result : option string) : string :=
  match result with
  | Some r => " " +:+ r
  | None => " " +:+ food +:+ " was left untouched."
  end.

(** * Iterator: the collection and its iterators of [iterator/main.py]

    A [WordCollection] holds a reference to a Python list, which can be
    shared with the caller; an [AlphabeticalOrderIterator] holds a
    reference to its collection, its own sorted copy of the items once
    the first item has been requested, and its position.  The items of
    the lists are strings, as in [__main__]. *)

Module Iter.

(** ** [sorted] on strings *)

(** [s <= t] on [str]: lexicographic on the characters. *)
Definition str_le (s t : string) : Prop := String.leb s t = true.

#[global] Instance str_le_dec : RelDecision str_le.
Proof. intros s t. unfold str_le. apply _. Defined.

(** [sorted(l)]: the ascending rearrangement of [l]; on strings it is
    the only one (see [sorted_unique]). *)
Definition sorted (l : list string) : list string := merge_sort str_le l.

(** ** Objects and the store *)

Record WordCollection : Type := MkWordCollection {
  _collection : ref
}.

(** [iter_collection] is the iterator's [_collection] attribute, the
    collection it was created for.  [_sorted_items] is [None] until the
    first [__next__]; the list it then holds is the iterator's own and
    is kept by value.  [_position] starts at 0 and is only incremented. *)
Record AlphabeticalOrderIterator : Type := MkIterator {
  iter_collection : ref;
  _reverse : bool;
  _sorted_items : option (list string);
  _position : nat
}.

Record store : Type := Store {
  lists : gmap ref (list string);
  collections : gmap ref WordCollection;
  iterators : gmap ref AlphabeticalOrderIterator;
  output : list string
}.

Inductive exn : Type :=
| StopIteration
| IndexError
| NoObject
| OutOfFuel.

#[global] Instance exn_eq_dec : EqDecision exn.
Proof. solve_decision. Defined.

Inductive outcome (A : Type) : Type :=
| Ok (a : A)
| Raise (e : exn).
Arguments Ok {A} a.
Arguments Raise {A} e.

Definition P (A : Type) : Type := store → outcome A * store.

#[global] Instance P_ret : MRet P := λ A a σ, (Ok a, σ).

#[global] Instance P_bind : MBind P := λ A B f m σ,
  match m σ with
  | (Ok a, σ') => f a σ'
  | (Raise e, σ') => (Raise e, σ')
  end.

Definition raise {A} (e : exn) : P A := λ σ, (Raise e, σ).

(** A new list object, as made by a list display or by [[]]. *)
Definition list_alloc (l : list string) : P ref := λ σ,
  let r := fresh (dom (lists σ)) in
  (Ok r, Store (<[r := l]> (lists σ)) (collections σ) (iterators σ) (output σ)).

(** References never dangle in Python; [NoObject] answers a reference
    that is not in the store. *)
Definition list_read (r : ref) : P (list string) := λ σ,
  match lists σ !! r with
  | Some l => (Ok l, σ)
  | None => (Raise NoObject, σ)
  end.

(** [l.append(item)] on the list object at [r]. *)
Definition list_append (r : ref) (item : string) : P () := λ σ,
  match lists σ !! r with
  | Some l =>
      (Ok (),
       Store (<[r := l ++ [item]]> (lists σ)) (collections σ) (iterators σ)
         (output σ))
  | None => (Raise NoObject, σ)
  end.

(** The position that index [i] denotes in a list of length [n]:
    [i] itself from 0 up, [n + i] for a negative [i] down to [-n]. *)
Definition norm_index (n : nat) (i : Z) : option nat :=
  if (0 <=? i)%Z
  then (if (i <? Z.of_nat n)%Z then Some (Z.to_nat i) else None)
  else (if (- Z.of_nat n <=? i)%Z then Some (Z.to_nat (Z.of_nat n + i)) else None).

(** [l[i]] *)
Definition list_getitem (l : list string) (i : Z) : P string :=
  match norm_index (length l) i ≫= (l !!.) with
  | Some x => mret x
  | None => raise IndexError
  end.

Definition coll_alloc (c : WordCollection) : P ref := λ σ,
  let r := fresh (dom (collections σ)) in
  (Ok r, Store (lists σ) (<[r := c]> (collections σ)) (iterators σ) (output σ)).

Definition coll_read (r : ref) : P WordCollection := λ σ,
  match collections σ !! r with
  | Some c => (Ok c, σ)
  | None => (Raise NoObject, σ)
  end.

Definition iter_alloc (it : AlphabeticalOrderIterator) : P ref := λ σ,
  let r := fresh (dom (iterators σ)) in
  (Ok r, Store (lists σ) (collections σ) (<[r := it]> (iterators σ)) (output σ)).

Definition iter_read (r : ref) : P AlphabeticalOrderIterator := λ σ,
  match iterators σ !! r with
  | Some it => (Ok it, σ)
  | None => (Raise NoObject, σ)
  end.

Definition iter_write (r : ref) (it : AlphabeticalOrderIterator) : P () := λ σ,
  (Ok (), Store (lists σ) (collections σ) (<[r := it]> (iterators σ)) (output σ)).

(** [print(s, end=end_)] *)
Definition print (s : string) (end_ : string) : P () := λ σ,
  (Ok (), Store (lists σ) (collections σ) (iterators σ) (output σ ++ [s +:+ end_])).

(** ** [WordCollection] *)

(** [WordCollection(collection)]: [self._collection = collection or []].
    A non-empty list is kept as it is, by reference; [None] and an empty
    list are both falsy and give a new empty list. *)
Definition WordCollection_new (collection : option ref) : P ref :=
  target ← match collection with
           | None => list_alloc []
           | Some r =>
               l ← list_read r;
               match l with
               | [] => list_alloc []
               | _ :: _ => mret r
               end
           end;
  coll_alloc (MkWordCollection target).

(** [WordCollection.__getitem__] *)
Definition getitem (self : ref) (index : Z) : P string :=
  c ← coll_read self;
  l ← list_read (_collection c);
  list_getitem l index.

(** [WordCollection.add_item] *)
Definition add_item (self : ref) (item : string) : P () :=
  c ← coll_read self;
  list_append (_collection c) item.

(** ** [AlphabeticalOrderIterator] *)

(** [AlphabeticalOrderIterator(collection, reverse)] *)
Definition AlphabeticalOrderIterator_new (collection : ref) (reverse : bool)
  : P ref :=
  iter_alloc (MkIterator collection reverse None 0).

(** [WordCollection.__iter__] *)
Definition iter_collection_asc (self : ref) : P ref :=
  AlphabeticalOrderIterator_new self false.

(** [WordCollection.get_reverse_iterator] *)
Definition get_reverse_iterator (self : ref) : P ref :=
  AlphabeticalOrderIterator_new self true.

(** The items in the order of traversal: [sorted(...)], then
    [list(reversed(...))] of it for a reverse iterator. *)
Definition in_order (rev : bool) (l : list string) : list string :=
  if rev then reverse (sorted l) else sorted l.

(** [AlphabeticalOrderIterator.__next__].  The first call sorts the
    list the collection holds at that moment and stores the result.
    [_position >= len(_sorted_items)] is the case in which the list has
    no item at [_position]. *)
Definition next (self : ref) : P string :=
  it ← iter_read self;
  items ← match _sorted_items it with
          | Some items => mret items
          | None =>
              c ← coll_read (iter_collection it);
              l ← list_read (_collection c);
              _ ← iter_write self
                    (MkIterator (iter_collection it) (_reverse it)
                       (Some (in_order (_reverse it) l)) (_position it));
              mret (in_order (_reverse it) l)
          end;
  match items !! _position it with
  | None => raise StopIteration
  | Some value =>
      _ ← iter_write self
            (MkIterator (iter_collection it) (_reverse it) (Some items)
               (S (_position it)));
      mret value
  end.

(** ** Consuming an iterable *)

Inductive iterable : Type :=
| ICollection (r : ref)
| IIterator (r : ref).

(** [iter(x)]: [WordCollection.__iter__] for a collection; an iterator
    inherits [__iter__] from [collections.abc.Iterator], which returns
    the iterator itself. *)
Definition iter (x : iterable) : P ref :=
  match x with
  | ICollection c => iter_collection_asc c
  | IIterator it => mret it
  end.

(** Calling [__next__] until [StopIteration], collecting the items.
    [fuel] bounds the number of calls. *)
Fixpoint drain (fuel : nat) (it : ref) : P (list string) :=
  match fuel with
  | 0 => raise OutOfFuel
  | S f => λ σ,
      match next it σ with
      | (Ok x, σ') => (xs ← drain f it; mret (x :: xs)) σ'
      | (Raise StopIteration, σ') => (Ok [], σ')
      | (Raise e, σ') => (Raise e, σ')
      end
  end.

(** [list(x)], which is also how [str.join] reads its argument. *)
Definition to_list (fuel : nat) (x : iterable) : P (list string) :=
  it ← iter x;
  drain fuel it.

(** [sep.join(x)] *)
Definition join (fuel : nat) (sep : string) (x : iterable) : P string :=
  items ← to_list fuel x;
  mret (String.concat sep items).

(** [__main__] *)
Definition main (fuel : nat) : P () :=
  collection ← WordCollection_new None;
  _ ← add_item collection "B";
  _ ← add_item collection "A";
  _ ← add_item collection "C";
  _ ← print "Straight traversal:" newline;
  s ← join fuel newline (ICollection collection);
  _ ← print s newline;
  _ ← print "Reverse traversal:" newline;
  it ← get_reverse_iterator collection;
  s ← join fuel newline (IIterator it);
  print s EmptyString.

Definition empty : store := Store ∅ ∅ ∅ [].

(** The collection of [__main__]: created empty, then "B", "A", "C"
    added. *)
Definition build_sample : P ref :=
  collection ← WordCollection_new None;
  _ ← add_item collection "B";
  _ ← add_item collection "A";
  _ ← add_item collection "C";
  mret collection.

Definition sample : store := (build_sample empty).2.
Definition sample_collection : ref := 0.
Definition sample_list : ref := 0.

(** The store with the iterator object at [r] replaced. *)
Definition put_iterator (r : ref) (it : AlphabeticalOrderIterator) (σ : store)
  : store :=
  Store (lists σ) (collections σ) (<[r := it]> (iterators σ)) (output σ).

End Iter.

(** * Basic facts *)

(** On built-in values, [== s] for a string [s] holds of [s] alone. *)
Lemma py_eq_str_true v s :
  builtin v = true → py_eq v (VStr s) = true ↔ v = VStr s.
Proof.
  intros Hb.
  destruct v; simpl; try done; try (split; [discriminate | intros [=]]).
  rewrite String.eqb_eq. split; [intros -> | intros [=]]; done.
Qed.

Lemma py_eq_str_false v s :
  builtin v = true → py_eq v (VStr s) = false ↔ v ≠ VStr s.
Proof.
  intros Hb. rewrite <- (py_eq_str_true v s Hb).
  destruct (py_eq v (VStr s)); split; try done.
Qed.

(** Between two strings [==] is equality of the strings. *)
Lemma py_eq_strings s t : py_eq (VStr s) (VStr t) = true ↔ s = t.
Proof. simpl. apply String.eqb_eq. Qed.

Lemma py_eq_strings_false s t : py_eq (VStr s) (VStr t) = false ↔ s ≠ t.
Proof. simpl. apply String.eqb_neq. Qed.

Lemma py_eq_refl_str s : py_eq (VStr s) (VStr s) = true.
Proof. by apply py_eq_strings. Qed.


Lemma build_chain_reference :
  build_chain initial = (Return (monkey, squirrel, dog), reference).
Proof. vm_compute. reflexivity. Qed.

Lemma reference_is_chain :
  is_chain (heap reference) monkey [squirrel; dog] = true.
Proof. vm_compute. reflexivity. Qed.

(** What the program prints, with a depth that covers the chain. *)
Example main_stdout :
  String.concat EmptyString (stdout (main 3 initial).2) =
"Chain: Monkey > Squirrel > Dog

Client: Who wants a Nut?
 Squirrel: I'll eat the Nut
Client: Who wants a Banana?
 Monkey: I'll eat the Banana
Client: Who wants a Cup of coffee?
 Cup of coffee was left untouched.

Subchain: Squirrel > Dog

Client: Who wants a Nut?
 Squirrel: I'll eat the Nut
Client: Who wants a Banana?
 Banana was left untouched.
Client: Who wants a Cup of coffee?
 Cup of coffee was left untouched.".
Proof. vm_compute. reflexivity. Qed.

(** Each concrete [handle] is the table entry of its class in front of
    the inherited delegation. *)
Lemma method_handle_table rec c self v :
  method_handle rec c self v =
    if py_eq v (VStr (trigger c))
    then mret (Some (ack c v))
    else AbstractHandler_handle rec self v.
Proof. destruct c; reflexivity. Qed.

(** One call of [handle], unfolded. *)
Lemma handle_step d self v σ o :
  heap σ !! self = Some o →
  handle (S d) self v σ =
    if py_eq v (VStr (trigger (cls o)))
    then (Return (Some (ack (cls o) v)), entered self v σ)
    else match _next_handler o with
         | Some n => handle d n v (entered self v σ)
         | None => (Return None, entered self v σ)
         end.
Proof.
  intros Ho. cbn [handle].
  unfold mbind, M_bind, deref, enter. rewrite Ho.
  rewrite method_handle_table. fold (entered self v σ).
  destruct (py_eq v (VStr (trigger (cls o)))); [reflexivity|].
  unfold AbstractHandler_handle, mbind, M_bind, deref. cbn [entered heap].
  rewrite Ho. destruct (_next_handler o); reflexivity.
Qed.

Lemma handle_dangling d self v σ :
  heap σ !! self = None → handle (S d) self v σ = (NoObject, σ).
Proof.
  intros Ho. cbn [handle]. unfold mbind, M_bind, deref. by rewrite Ho.
Qed.

(** The stateful [handle] is [run] on the store; it only appends the
    entered handlers, each with the original request, to the call log. *)
Lemma handle_run depth : ∀ self v σ,
  handle depth self v σ =
    ((run depth (heap σ) self v).1,
     State (heap σ) (stdout σ)
       (calls σ ++ ((λ r, (r, v)) <$> (run depth (heap σ) self v).2))).
Proof.
  induction depth as [|d IH]; intros self v σ.
  - destruct σ; cbn. by rewrite app_nil_r.
  - cbn [run]. destruct (heap σ !! self) as [o|] eqn:Ho.
    + rewrite (handle_step _ _ _ _ _ Ho).
      destruct (py_eq v (VStr (trigger (cls o)))); [reflexivity|].
      destruct (_next_handler o) as [n|]; [|reflexivity].
      rewrite IH. cbn. by rewrite <- app_assoc.
    + rewrite (handle_dangling _ _ _ _ Ho). destruct σ; cbn.
      by rewrite app_nil_r.
Qed.

(** * Chains are finite paths without repetition *)

Lemma is_chain_inv h r rest :
  is_chain h r rest = true →
  ∃ o, h !! r = Some o ∧
    match rest with
    | [] => _next_handler o = None
    | n :: rest' => _next_handler o = Some n ∧ is_chain h n rest' = true
    end.
Proof.
  destruct rest as [|n rest']; cbn [is_chain];
    destruct (h !! r) as [o|]; try discriminate;
    destruct (_next_handler o) as [m|] eqn:Hn; try discriminate; intros H.
  - by exists o.
  - apply andb_true_iff in H as [Hm H]. apply bool_decide_eq_true in Hm.
    subst m. by exists o.
Qed.

Lemma is_chain_last h r o :
  h !! r = Some o → _next_handler o = None → is_chain h r [] = true.
Proof. intros Ho Hn. cbn. by rewrite Ho, Hn. Qed.

Lemma is_chain_link h r o n rest :
  h !! r = Some o → _next_handler o = Some n →
  is_chain h n rest = true → is_chain h r (n :: rest) = true.
Proof.
  intros Ho Hn Hc. cbn [is_chain]. rewrite Ho, Hn, Hc.
  by rewrite bool_decide_eq_true_2.
Qed.

(** The path from a handler is determined by the store. *)
Lemma is_chain_unique h l1 : ∀ r l2,
  is_chain h r l1 = true → is_chain h r l2 = true → l1 = l2.
Proof.
  induction l1 as [|n l1 IH]; intros r l2 H1 H2;
    apply is_chain_inv in H1 as (o & Ho & H1);
    apply is_chain_inv in H2 as (o' & Ho' & H2);
    rewrite Ho in Ho'; injection Ho' as <-; destruct l2 as [|n' l2].
  - done.
  - destruct H2 as [H2 _]. congruence.
  - destruct H1 as [H1 _]. congruence.
  - destruct H1 as [H1 C1], H2 as [H2 C2].
    assert (n = n') as <- by congruence. f_equal. by apply (IH n).
Qed.

(** The part of a chain from any of its nodes on is a chain. *)
Lemma is_chain_suffix h pre : ∀ r rest N post,
  is_chain h r rest = true → r :: rest = pre ++ N :: post →
  is_chain h N post = true.
Proof.
  induction pre as [|x pre IH]; intros r rest N post Hc Heq; simpl in Heq.
  - by injection Heq as <- <-.
  - injection Heq as <- ->.
    destruct pre as [|y pre']; cbn [app] in Hc;
      apply is_chain_inv in Hc as (o & _ & _ & Hc); [done|].
    by apply (IH y (pre' ++ N :: post)).
Qed.

Lemma is_chain_not_in_rest h r rest :
  is_chain h r rest = true → r ∉ rest.
Proof.
  intros Hc Hin. apply list_elem_of_split in Hin as (a & b & Heq).
  assert (is_chain h r b = true) as Hb.
  { eapply (is_chain_suffix h (r :: a) r rest r b); [done|]. by rewrite Heq. }
  pose proof (is_chain_unique _ _ _ _ Hc Hb) as E.
  apply (f_equal length) in E. rewrite Heq, length_app in E. simpl in E. lia.
Qed.

Lemma is_chain_NoDup h rest : ∀ r,
  is_chain h r rest = true → NoDup (r :: rest).
Proof.
  induction rest as [|n rest IH]; intros r Hc.
  - apply NoDup_singleton.
  - constructor; [by eapply is_chain_not_in_rest|].
    apply is_chain_inv in Hc as (o & _ & _ & Hc). by apply IH.
Qed.

Lemma is_chain_lookup h rest : ∀ r x,
  is_chain h r rest = true → x ∈ r :: rest → is_Some (h !! x).
Proof.
  induction rest as [|n rest IH]; intros r x Hc Hx;
    pose proof (is_chain_inv _ _ _ Hc) as (o & Ho & Hr).
  - apply list_elem_of_singleton in Hx as ->. by exists o.
  - apply elem_of_cons in Hx as [->|Hx]; [by exists o|].
    destruct Hr as [_ Hr]. by eapply IH.
Qed.

(** * Dispatch along a chain *)

(** With enough depth for the handlers it enters, [run] on a chain is
    the first match along the list. *)
Lemma run_chain h v rest : ∀ r depth,
  is_chain h r rest = true →
  length (visited h v (r :: rest)) ≤ depth →
  run depth h r v = (Return (first_match h v (r :: rest)), visited h v (r :: rest)).
Proof.
  induction rest as [|n rest IH]; intros r depth Hc Hd;
    pose proof (is_chain_inv _ _ _ Hc) as (o & Ho & Hr);
    cbn [visited first_match] in *; rewrite Ho in *;
    (destruct depth as [|d];
      [destruct (py_eq v (VStr (trigger (cls o)))); simpl in Hd; lia|]);
    cbn [run]; rewrite Ho;
    destruct (py_eq v (VStr (trigger (cls o)))); try reflexivity.
  - by rewrite Hr.
  - destruct Hr as [Hn Hr]. rewrite Hn.
    rewrite (IH n d Hr); [reflexivity|]. simpl in Hd. lia.
Qed.

(** Whatever the depth, on a chain [run] enters a prefix of the chain. *)
Lemma run_prefix h v rest : ∀ r depth,
  is_chain h r rest = true → (run depth h r v).2 `prefix_of` r :: rest.
Proof.
  induction rest as [|n rest IH]; intros r depth Hc;
    pose proof (is_chain_inv _ _ _ Hc) as (o & Ho & Hr);
    (destruct depth as [|d]; [apply prefix_nil|]);
    cbn [run]; rewrite Ho;
    destruct (py_eq v (VStr (trigger (cls o))));
    try (apply prefix_cons, prefix_nil).
  - rewrite Hr. apply prefix_cons, prefix_nil.
  - destruct Hr as [Hn Hr]. rewrite Hn. cbn. apply prefix_cons. by apply IH.
Qed.

(** [run] from a node reads only the objects of the chain from that node. *)
Lemma run_local h h' v rest : ∀ r depth,
  is_chain h r rest = true →
  (∀ x, x ∈ r :: rest → h' !! x = h !! x) →
  run depth h' r v = run depth h r v.
Proof.
  induction rest as [|n rest IH]; intros r depth Hc Hag;
    pose proof (is_chain_inv _ _ _ Hc) as (o & Ho & Hr);
    (destruct depth as [|d]; [reflexivity|]);
    cbn [run]; rewrite (Hag r) by left; rewrite Ho;
    destruct (py_eq v (VStr (trigger (cls o)))); try reflexivity.
  - by rewrite Hr.
  - destruct Hr as [Hn Hr]. rewrite Hn.
    rewrite (IH n d Hr); [reflexivity|]. intros x Hx. apply Hag. by right.
Qed.

Lemma visited_length h v l : length (visited h v l) ≤ length l.
Proof.
  induction l as [|r l IH]; simpl; [lia|].
  destruct (h !! r) as [o|]; [|simpl; lia].
  destruct (py_eq v (VStr (trigger (cls o)))); simpl; lia.
Qed.

(** The handlers entered are the chain up to and including the first
    one that matches, or the whole chain. *)
Lemma visited_first_match h v pre : ∀ H o post,
  (∀ E oE, E ∈ pre → h !! E = Some oE → py_eq v (VStr (trigger (cls oE))) = false) →
  (∀ E, E ∈ pre → is_Some (h !! E)) →
  h !! H = Some o → py_eq v (VStr (trigger (cls o))) = true →
  visited h v (pre ++ H :: post) = pre ++ [H] ∧
  first_match h v (pre ++ H :: post) = Some (ack (cls o) v).
Proof.
  induction pre as [|x pre IH]; intros H o post Hpre Hdom Ho Hm; simpl.
  - by rewrite Ho, Hm.
  - destruct (Hdom x) as [ox Hox]; [left|]. rewrite Hox.
    rewrite (Hpre x ox) by (done || left).
    destruct (IH H o post) as [-> ->]; try done.
    + intros E oE HE. apply Hpre. by right.
    + intros E HE. apply Hdom. by right.
Qed.

Lemma visited_no_match h v l :
  (∀ E oE, E ∈ l → h !! E = Some oE → py_eq v (VStr (trigger (cls oE))) = false) →
  (∀ E, E ∈ l → is_Some (h !! E)) →
  visited h v l = l ∧ first_match h v l = None.
Proof.
  induction l as [|x l IH]; intros Hl Hdom; simpl; [done|].
  destruct (Hdom x) as [ox Hox]; [left|]. rewrite Hox.
  rewrite (Hl x ox) by (done || left).
  destruct IH as [-> ->]; try done.
  - intros E oE HE. apply Hl. by right.
  - intros E HE. apply Hdom. by right.
Qed.

Lemma visited_cons h v r l o :
  h !! r = Some o →
  visited h v (r :: l) =
    if py_eq v (VStr (trigger (cls o))) then [r] else r :: visited h v l.
Proof. intros Ho. cbn [visited]. by rewrite Ho. Qed.

Lemma visited_chain_end h v rest : ∀ r,
  is_chain h r rest = true →
  ∃ k last o,
    visited h v (r :: rest) = take k (r :: rest) ∧
    1 ≤ k ≤ length (r :: rest) ∧
    (r :: rest) !! (k - 1) = Some last ∧
    h !! last = Some o ∧
    (py_eq v (VStr (trigger (cls o))) = true ∨ _next_handler o = None).
Proof.
  induction rest as [|n rest IH]; intros r Hc;
    pose proof (is_chain_inv _ _ _ Hc) as (o & Ho & Hr);
    rewrite (visited_cons _ _ _ _ _ Ho);
    destruct (py_eq v (VStr (trigger (cls o)))) eqn:Hm.
  - exists 1, r, o. simpl. repeat split; auto.
  - exists 1, r, o. simpl. repeat split; auto.
  - exists 1, r, o. simpl. repeat split; auto. lia.
  - destruct Hr as [_ Hr].
    destruct (IH n Hr) as (k & last & o' & Hv & Hk & Hl & Ho' & Hend).
    exists (S k), last, o'. rewrite Hv. repeat split; auto.
    + lia.
    + simpl in *. lia.
    + destruct k as [|k]; [lia|]. simpl in *. by rewrite Nat.sub_0_r in Hl.
Qed.

(** * What a call of [handle] does to the state *)

Lemma handle_result depth self v σ :
  (handle depth self v σ).1 = (run depth (heap σ) self v).1.
Proof. by rewrite handle_run. Qed.

Lemma handle_heap depth self v σ : heap (handle depth self v σ).2 = heap σ.
Proof. by rewrite handle_run. Qed.

Lemma called_between_handle depth self v σ :
  called_between σ (handle depth self v σ).2 = (run depth (heap σ) self v).2.
Proof.
  rewrite handle_run. unfold called_between. cbn [snd calls].
  rewrite drop_app_length.
  induction (run depth (heap σ) self v).2 as [|x l IH]; [done|].
  cbn. by rewrite IH.
Qed.

(** * Closed stores: no reference dangles *)

Lemma run_closed h v depth : ∀ self,
  closed h → is_Some (h !! self) → (run depth h self v).1 ≠ NoObject.
Proof.
  induction depth as [|d IH]; intros self Hcl [o Ho]; [done|].
  cbn [run]. rewrite Ho.
  destruct (py_eq v (VStr (trigger (cls o)))); [done|].
  destruct (_next_handler o) as [n|] eqn:Hn; [|done].
  cbn. apply IH; [done|]. by eapply Hcl.
Qed.

Lemma set_next_closed σ self handler :
  closed (heap σ) → is_Some (heap σ !! handler) →
  closed (heap (set_next self handler σ).2).
Proof.
  intros Hcl Hh. unfold set_next, mbind, M_bind, setattr_next_handler.
  destruct (heap σ !! self) as [o|] eqn:Ho; [|done]. cbn.
  intros r o' n Hr Hn.
  assert (is_Some (heap σ !! n)) as [on Hon].
  { destruct (decide (self = r)) as [->|Hne].
    - rewrite lookup_insert_eq in Hr. injection Hr as <-.
      cbn in Hn. by injection Hn as <-.
    - rewrite lookup_insert_ne in Hr by done. by eapply Hcl. }
  destruct (decide (self = n)) as [->|Hne].
  - rewrite lookup_insert_eq. by eexists.
  - rewrite lookup_insert_ne by done. by eexists.
Qed.

Lemma reference_heap :
  heap reference =
    <[dog := Object DogHandler None]>
      (<[squirrel := Object SquirrelHandler (Some dog)]>
         (<[monkey := Object MonkeyHandler (Some squirrel)]> ∅)).
Proof. vm_compute. reflexivity. Qed.

Lemma reference_closed : closed (heap reference).
Proof.
  intros r o n Hr Hn. rewrite reference_heap in Hr.
  rewrite !lookup_insert in Hr.
  repeat case_decide; simplify_eq; cbn in Hn; simplify_eq;
    vm_compute; eauto.
Qed.

(** * Dispatch from the head of a chain *)

(** No handler of the chain compares equal to the request: every handler
    is entered and the result is absent. *)
Lemma run_no_match h r rest v depth :
  is_chain h r rest = true →
  (∀ H o, H ∈ r :: rest → h !! H = Some o →
     py_eq v (VStr (trigger (cls o))) = false) →
  length (r :: rest) ≤ depth →
  run depth h r v = (Return None, r :: rest).
Proof.
  intros Hc Hno Hd.
  destruct (visited_no_match h v (r :: rest)) as [Hv Hf]; [done| |].
  - intros E HE. by apply (is_chain_lookup _ _ _ _ Hc).
  - rewrite (run_chain _ _ _ _ _ Hc); [by rewrite Hf, Hv|by rewrite Hv].
Qed.

(** C1: in every chain, a request equal to the trigger value of a
    handler [H] of the chain, dispatched from the head, returns the
    acknowledgment of [H], provided no handler linked before [H] has the
    same trigger value.  Handlers linked after [H] are unconstrained:
    when several handlers match, the first-linked one answers and the
    handlers after it are not entered. *)
Theorem handle_first_match_wins σ r rest pre H post o depth :
  is_chain (heap σ) r rest = true →
  r :: rest = pre ++ H :: post →
  heap σ !! H = Some o →
  (∀ E oE, E ∈ pre → heap σ !! E = Some oE →
     trigger (cls oE) ≠ trigger (cls o)) →
  length (r :: rest) ≤ depth →
  (handle depth r (VStr (trigger (cls o))) σ).1 =
    Return (Some (ack (cls o) (VStr (trigger (cls o))))) ∧
  called_between σ (handle depth r (VStr (trigger (cls o))) σ).2 =
    pre ++ [H].
Proof.
  intros Hc Heq Ho Hpre Hd.
  destruct (visited_first_match (heap σ) (VStr (trigger (cls o))) pre H o post)
    as [Hv Hf]; try done.
  - intros E oE HE HoE. apply py_eq_strings_false. intros Ht.
    by apply (Hpre E oE).
  - intros E HE. apply (is_chain_lookup _ _ _ _ Hc). rewrite Heq.
    apply elem_of_app. by left.
  - apply py_eq_refl_str.
  - rewrite handle_result, called_between_handle, (run_chain _ _ _ _ _ Hc).
    + cbn [fst snd]. by rewrite Heq, Hf, Hv.
    + etrans; [apply visited_length | done].
Qed.

Lemma handle_first_match_wins_witness :
  (handle 3 monkey (VStr "Nut") reference).1 =
    Return (Some "Squirrel: I'll eat the Nut") ∧
  called_between reference (handle 3 monkey (VStr "Nut") reference).2 =
    [monkey; squirrel].
Proof.
  apply (handle_first_match_wins reference monkey [squirrel; dog]
           [monkey] squirrel [dog] (Object SquirrelHandler (Some dog)) 3).
  - vm_compute. reflexivity.
  - reflexivity.
  - vm_compute. reflexivity.
  - intros E oE HE HoE. apply list_elem_of_singleton in HE. subst E.
    vm_compute in HoE. injection HoE as <-. vm_compute. discriminate.
  - simpl. lia.
Defined.

(** Two handlers of the same class in one chain: the first-linked one
    answers and the second is never entered; from the squirrel on, the
    second one answers. *)
Example two_monkeys_first_wins :
  is_chain (heap two_monkeys) 0 [1; 2] = true ∧
  (handle 3 0 (VStr "Banana") two_monkeys).1 =
    Return (Some "Monkey: I'll eat the Banana") ∧
  called_between two_monkeys (handle 3 0 (VStr "Banana") two_monkeys).2 = [0] ∧
  called_between two_monkeys (handle 3 1 (VStr "Banana") two_monkeys).2 = [1; 2].
Proof. vm_compute. repeat split. Qed.

(** C2: in every chain, a request that is not equal to the trigger
    value of any handler of the chain (the handlers' [==] test is false;
    between strings that is exact inequality, see [py_eq_strings]),
    dispatched from the head, returns normally with the absent result:
    neither an acknowledgment nor an exception. *)
Theorem handle_unmatched σ r rest v depth :
  is_chain (heap σ) r rest = true →
  (∀ H o, H ∈ r :: rest → heap σ !! H = Some o →
     py_eq v (VStr (trigger (cls o))) = false) →
  length (r :: rest) ≤ depth →
  (handle depth r v σ).1 = Return None.
Proof.
  intros Hc Hno Hd.
  by rewrite handle_result, (run_no_match _ _ _ _ _ Hc Hno Hd).
Qed.

Lemma handle_unmatched_witness :
  (handle 3 monkey (VStr "banana") reference).1 = Return None.
Proof.
  apply (handle_unmatched reference monkey [squirrel; dog] (VStr "banana") 3).
  - vm_compute. reflexivity.
  - intros H o HH Ho. rewrite reference_heap in Ho.
    rewrite !lookup_insert in Ho.
    repeat case_decide; simplify_eq; vm_compute; reflexivity.
  - simpl. lia.
Defined.

(** For a request of a built-in type, [==] with a trigger is false as
    soon as the request is not that very string: a string that differs
    in any character or in case, [None], a [bool], an [int]. *)
Lemma unmatched_builtin_request σ r rest v depth :
  builtin v = true →
  is_chain (heap σ) r rest = true →
  (∀ H o, H ∈ r :: rest → heap σ !! H = Some o → v ≠ VStr (trigger (cls o))) →
  length (r :: rest) ≤ depth →
  (handle depth r v σ).1 = Return None.
Proof.
  intros Hb Hc Hno Hd. rewrite handle_result, (run_no_match _ _ _ _ _ Hc); try done.
  intros H o HH Ho. apply py_eq_str_false; [done|]. by apply (Hno H o).
Qed.

(** * A single handler *)

(** C3: a handler whose trigger does not match the request and that has
    a successor behaves as the successor's [handle] on the same request:
    the whole outcome is that of the successor's call made after the
    entry, and the returned value is the one the successor returns.  A
    handler whose trigger does not match and that has no successor
    returns the absent result. *)
Theorem handle_delegates σ self o v d :
  heap σ !! self = Some o →
  py_eq v (VStr (trigger (cls o))) = false →
  (∀ next, _next_handler o = Some next →
     handle (S d) self v σ = handle d next v (entered self v σ) ∧
     (handle (S d) self v σ).1 = (handle d next v σ).1) ∧
  (_next_handler o = None → (handle (S d) self v σ).1 = Return None).
Proof.
  intros Ho Hm. rewrite (handle_step _ _ _ _ _ Ho), Hm. split.
  - intros next ->. split; [done|]. by rewrite !handle_result.
  - by intros ->.
Qed.

Lemma handle_delegates_witness :
  (handle 3 monkey (VStr "Nut") reference).1 =
    (handle 2 squirrel (VStr "Nut") reference).1 ∧
  (handle 1 dog (VStr "Nut") reference).1 = Return None.
Proof.
  split.
  - apply (handle_delegates reference monkey
             (Object MonkeyHandler (Some squirrel)) (VStr "Nut") 2);
      vm_compute; reflexivity.
  - apply (handle_delegates reference dog
             (Object DogHandler None) (VStr "Nut") 0);
      vm_compute; reflexivity.
Defined.

(** C4: a handler whose trigger equals the request returns its own
    acknowledgment at once: the call ends in the state it was entered
    in, with no further [handle] call logged, whatever its successor
    link is.  In the reference chain, ["Banana"] dispatched to the
    monkey returns the monkey's acknowledgment and the only handler
    entered is the monkey. *)
Theorem handle_match_immediate :
  (∀ σ self o v d,
     heap σ !! self = Some o →
     py_eq v (VStr (trigger (cls o))) = true →
     handle (S d) self v σ =
       (Return (Some (ack (cls o) v)), entered self v σ)) ∧
  (∀ d,
     (handle (S d) monkey (VStr "Banana") reference).1 =
       Return (Some "Monkey: I'll eat the Banana") ∧
     called_between reference
       (handle (S d) monkey (VStr "Banana") reference).2 = [monkey]).
Proof.
  assert (∀ σ self o v d,
     heap σ !! self = Some o →
     py_eq v (VStr (trigger (cls o))) = true →
     handle (S d) self v σ =
       (Return (Some (ack (cls o) v)), entered self v σ)) as Hgen.
  { intros σ self o v d Ho Hm. by rewrite (handle_step _ _ _ _ _ Ho), Hm. }
  split; [exact Hgen|]. intros d.
  rewrite (Hgen reference monkey (Object MonkeyHandler (Some squirrel)))
    by (vm_compute; reflexivity).
  split; [reflexivity|]. unfold called_between. cbn [snd entered calls].
  by rewrite drop_app_length.
Qed.

Lemma handle_match_immediate_witness :
  handle 1 squirrel (VStr "Nut") reference =
    (Return (Some "Squirrel: I'll eat the Nut"),
     entered squirrel (VStr "Nut") reference).
Proof.
  apply (proj1 handle_match_immediate reference squirrel
           (Object SquirrelHandler (Some dog)) (VStr "Nut") 0);
    vm_compute; reflexivity.
Defined.

(** C5: dispatching to a node [N] of a chain depends only on [N] and the
    handlers linked after it: any state that agrees with the chain's
    state on those objects gives the same result, and no handler linked
    before [N] is entered.  In the reference chain, ["Banana"]
    dispatched to the squirrel returns the absent result although the
    monkey, dispatched to directly, acknowledges it. *)
Theorem subchain_dispatch_local :
  (∀ σ r rest pre N post v depth,
     is_chain (heap σ) r rest = true →
     r :: rest = pre ++ N :: post →
     (∀ σ', (∀ x, x ∈ N :: post → heap σ' !! x = heap σ !! x) →
        (handle depth N v σ').1 = (handle depth N v σ).1) ∧
     (∀ E, E ∈ pre → E ∉ called_between σ (handle depth N v σ).2)) ∧
  (∀ d,
     (handle (S (S d)) squirrel (VStr "Banana") reference).1 = Return None ∧
     (handle (S d) monkey (VStr "Banana") reference).1 =
       Return (Some "Monkey: I'll eat the Banana")).
Proof.
  split.
  - intros σ r rest pre N post v depth Hc Heq.
    pose proof (is_chain_suffix _ _ _ _ _ _ Hc Heq) as HN. split.
    + intros σ' Hag. rewrite !handle_result.
      by rewrite (run_local (heap σ) (heap σ') v post N depth HN Hag).
    + intros E HE Hin. rewrite called_between_handle in Hin.
      pose proof (run_prefix (heap σ) v post N depth HN) as [k Hk].
      pose proof (is_chain_NoDup _ _ _ Hc) as Hnd. rewrite Heq in Hnd.
      apply NoDup_app in Hnd as (_ & Hdis & _).
      apply (Hdis E HE). rewrite Hk. apply elem_of_app. by left.
  - intros d. split.
    + rewrite handle_result, (run_no_match _ squirrel [dog]); [done| | |].
      * vm_compute. reflexivity.
      * intros H o HH Ho. rewrite reference_heap in Ho.
        rewrite !lookup_insert in Ho.
        repeat case_decide; simplify_eq; try (vm_compute; reflexivity).
        apply elem_of_cons in HH as [HH|HH]; [discriminate|].
        apply list_elem_of_singleton in HH. discriminate.
      * simpl. lia.
    + apply (proj2 handle_match_immediate d).
Qed.

Lemma subchain_dispatch_local_witness :
  (∀ σ', (∀ x, x ∈ [squirrel; dog] → heap σ' !! x = heap reference !! x) →
     (handle 2 squirrel (VStr "Banana") σ').1 =
       (handle 2 squirrel (VStr "Banana") reference).1) ∧
  (∀ E, E ∈ [monkey] →
     E ∉ called_between reference
           (handle 2 squirrel (VStr "Banana") reference).2).
Proof.
  apply (proj1 subchain_dispatch_local reference monkey [squirrel; dog]
           [monkey] squirrel [dog] (VStr "Banana") 2).
  - vm_compute. reflexivity.
  - reflexivity.
Defined.

(** * Relinking *)

Lemma set_next_lookup σ self handler o :
  heap σ !! self = Some o →
  set_next self handler σ =
    (Return handler,
     State (<[self := Object (cls o) (Some handler)]> (heap σ))
       (stdout σ) (calls σ)).
Proof.
  intros Ho. unfold set_next, mbind, M_bind, setattr_next_handler.
  by rewrite Ho.
Qed.

(** C6, as amended: a second [set_next] on a handler overwrites the
    successor stored by the first (last write wins): the two calls leave
    the state that the second call alone leaves, [set_next] returns the
    handler passed in, and every later dispatch of an unmatched request
    through the handler is the dispatch to the new successor.  The first
    successor is not entered unless it lies on the chain through the new
    successor. *)
Theorem set_next_last_write_wins σ self a b o :
  heap σ !! self = Some o →
  set_next_twice self a b σ = set_next self b σ ∧
  (set_next_twice self a b σ).1 = Return b ∧
  heap (set_next_twice self a b σ).2 !! self =
    Some (Object (cls o) (Some b)) ∧
  (∀ v d, py_eq v (VStr (trigger (cls o))) = false →
     handle (S d) self v (set_next_twice self a b σ).2 =
       handle d b v (entered self v (set_next_twice self a b σ).2)) ∧
  (∀ v depth rest,
     is_chain (heap (set_next_twice self a b σ).2) self (b :: rest) = true →
     a ∉ self :: b :: rest →
     a ∉ called_between (set_next_twice self a b σ).2
           (handle depth self v (set_next_twice self a b σ).2).2).
Proof.
  intros Ho.
  assert (set_next_twice self a b σ = set_next self b σ) as Htwice.
  { unfold set_next_twice, mbind, M_bind at 1.
    rewrite (set_next_lookup _ _ _ _ Ho).
    rewrite (set_next_lookup _ self b (Object (cls o) (Some a)))
      by apply lookup_insert_eq.
    rewrite (set_next_lookup _ _ _ _ Ho). cbn.
    by rewrite insert_insert_eq. }
  rewrite Htwice, (set_next_lookup _ _ _ _ Ho). cbn [fst snd].
  set (σ2 := State _ _ _).
  assert (heap σ2 !! self = Some (Object (cls o) (Some b))) as Hself
    by apply lookup_insert_eq.
  repeat split; try done.
  - intros v d Hm. rewrite (handle_step _ _ _ _ _ Hself). cbn [cls].
    by rewrite Hm.
  - intros v depth rest Hc Hnot Hin.
    rewrite called_between_handle in Hin.
    pose proof (run_prefix _ v _ _ depth Hc) as [k Hk].
    apply Hnot. rewrite Hk. apply elem_of_app. by left.
Qed.

Lemma set_next_last_write_wins_witness :
  set_next_twice monkey dog squirrel squirrel_dog =
    set_next monkey squirrel squirrel_dog.
Proof.
  apply (set_next_last_write_wins squirrel_dog monkey dog squirrel
           (Object MonkeyHandler None)).
  vm_compute. reflexivity.
Defined.

(** C6 as first stated fails: with the squirrel linked to the dog,
    [monkey.set_next(dog); monkey.set_next(squirrel)] discards the dog as
    the monkey's successor, yet ["MeatBall"] dispatched to the monkey
    still enters the dog, through the squirrel, and the dog answers. *)
Lemma set_next_twice_reaches_first :
  (handle 3 monkey (VStr "MeatBall")
     (set_next_twice monkey dog squirrel squirrel_dog).2).1 =
    Return (Some "Dog: I'll eat the MeatBall") ∧
  dog ∈ called_between (set_next_twice monkey dog squirrel squirrel_dog).2
          (handle 3 monkey (VStr "MeatBall")
             (set_next_twice monkey dog squirrel squirrel_dog).2).2.
Proof.
  split; [vm_compute; reflexivity|].
  replace (called_between _ _) with [monkey; squirrel; dog]
    by (vm_compute; reflexivity).
  apply elem_of_cons. right. apply elem_of_cons. right. by left.
Qed.

(** * Frame, determinism, termination *)

(** C7: [handle] has no effect but its return value: whatever the depth,
    the handler and the request, the object store after the call is the
    store before it (so every successor link and every handler's class,
    hence its trigger, is unchanged), nothing is printed, and every
    nested [handle] call was made with the request unchanged. *)
Theorem handle_no_side_effects depth self v σ :
  heap (handle depth self v σ).2 = heap σ ∧
  stdout (handle depth self v σ).2 = stdout σ ∧
  ∃ entered_handlers,
    calls (handle depth self v σ).2 =
      calls σ ++ ((λ r, (r, v)) <$> entered_handlers).
Proof.
  rewrite handle_run. cbn [snd heap stdout calls].
  repeat split. by eexists.
Qed.

(** C8: dispatch is deterministic: calling [handle] again with the same
    request in the state the first call left returns the same result,
    and so does a call in any state with the same object store. *)
Theorem handle_deterministic depth self v σ :
  (handle depth self v (handle depth self v σ).2).1 =
    (handle depth self v σ).1 ∧
  (∀ σ', heap σ' = heap σ →
     (handle depth self v σ').1 = (handle depth self v σ).1).
Proof.
  split.
  - by rewrite !handle_result, handle_heap.
  - intros σ' Hh. by rewrite !handle_result, Hh.
Qed.

Lemma handle_deterministic_witness :
  (handle 3 monkey (VStr "Nut") (entered dog VNone reference)).1 =
    (handle 3 monkey (VStr "Nut") reference).1.
Proof.
  apply (proj2 (handle_deterministic 3 monkey (VStr "Nut") reference)).
  reflexivity.
Defined.

(** C9: on every chain, dispatch from the head returns (no
    [RecursionError]) as soon as the depth covers the length of the
    chain: the handlers entered are the first [k] of the chain for some
    [k] between one and the length of the chain, and the last one
    entered either matches the request or has no successor. *)
Theorem handle_terminates σ r rest v depth :
  is_chain (heap σ) r rest = true →
  length (r :: rest) ≤ depth →
  ∃ res k last o,
    (handle depth r v σ).1 = Return res ∧
    called_between σ (handle depth r v σ).2 = take k (r :: rest) ∧
    1 ≤ k ≤ length (r :: rest) ∧
    (r :: rest) !! (k - 1) = Some last ∧
    heap σ !! last = Some o ∧
    (py_eq v (VStr (trigger (cls o))) = true ∨ _next_handler o = None).
Proof.
  intros Hc Hd.
  destruct (visited_chain_end (heap σ) v rest r Hc)
    as (k & last & o & Hv & Hk & Hl & Ho & Hend).
  exists (first_match (heap σ) v (r :: rest)), k, last, o.
  rewrite handle_result, called_between_handle, (run_chain _ _ _ _ _ Hc).
  - cbn [fst snd]. by rewrite Hv.
  - etrans; [apply visited_length | done].
Qed.

Lemma handle_terminates_witness :
  ∃ res k last o,
    (handle 3 monkey (VStr "Nut") reference).1 = Return res ∧
    called_between reference (handle 3 monkey (VStr "Nut") reference).2 =
      take k [monkey; squirrel; dog] ∧
    1 ≤ k ≤ length [monkey; squirrel; dog] ∧
    [monkey; squirrel; dog] !! (k - 1) = Some last ∧
    heap reference !! last = Some o ∧
    (py_eq (VStr "Nut") (VStr (trigger (cls o))) = true ∨
     _next_handler o = None).
Proof.
  apply (handle_terminates reference monkey [squirrel; dog] (VStr "Nut") 3).
  - vm_compute. reflexivity.
  - simpl. lia.
Defined.

(** On a cycle the hypothesis of C9 fails and so does its conclusion:
    a handler linked to itself, given a request it does not match, ends
    in [RecursionError] at every depth. *)
Lemma loop_RecursionError depth :
  (handle depth monkey (VStr "Nut") loop).1 = RecursionError.
Proof.
  rewrite handle_result.
  assert (heap loop !! monkey = Some (Object MonkeyHandler (Some monkey)))
    as Ho by (vm_compute; reflexivity).
  induction depth as [|d IH]; [reflexivity|].
  cbn [run]. rewrite Ho. cbn. exact IH.
Qed.




(** * More on dispatch *)

Lemma run_ack depth h : ∀ self v s,
  (run depth h self v).1 = Return (Some s) →
  ∃ c, py_eq v (VStr (trigger c)) = true ∧ s = ack c v.
Proof.
  induction depth as [|d IH]; intros self v s; [discriminate|].
  cbn [run]. destruct (h !! self) as [o|]; [|discriminate].
  destruct (py_eq v (VStr (trigger (cls o)))) eqn:Hm.
  - intros [= <-]. by exists (cls o).
  - destruct (_next_handler o) as [n|]; [|discriminate]. cbn. apply IH.
Qed.

Lemma ack_nonempty c v : ∃ a s, ack c v = String a s.
Proof. destruct c; cbn; eauto. Qed.



Lemma run_mono h v d : ∀ self d' x,
  (run d h self v).1 = Return x → d ≤ d' → run d' h self v = run d h self v.
Proof.
  induction d as [|d IH]; intros self d' x; [discriminate|].
  intros H Hle. destruct d' as [|d']; [lia|]. cbn [run] in *.
  destruct (h !! self) as [o|]; [|done].
  destruct (py_eq v (VStr (trigger (cls o)))); [done|].
  destruct (_next_handler o) as [n|]; [|done].
  cbn in H. by rewrite (IH n d' x H) by lia.
Qed.

(** A dispatch that returns does not depend on how much deeper the calls
    could have nested: with any larger depth it returns the same value
    and enters the same handlers. *)
Theorem handle_depth_irrelevant d d' self v σ x :
  (handle d self v σ).1 = Return x →
  d ≤ d' →
  handle d' self v σ = handle d self v σ.
Proof.
  intros H Hle. rewrite handle_result in H.
  by rewrite !handle_run, (run_mono _ _ _ _ _ _ H Hle).
Qed.

Lemma handle_depth_irrelevant_witness :
  handle 7 monkey (VStr "Nut") reference = handle 2 monkey (VStr "Nut") reference.
Proof.
  apply (handle_depth_irrelevant 2 7 monkey (VStr "Nut") reference
           (Some "Squirrel: I'll eat the Nut")).
  - vm_compute. reflexivity.
  - lia.
Defined.

(** * More on relinking *)

(** [set_next] on a handler that is not on the chain from [N] does not
    change what a dispatch to [N] returns. *)
Theorem set_next_elsewhere σ self handler N post v depth :
  is_chain (heap σ) N post = true →
  self ∉ N :: post →
  (handle depth N v (set_next self handler σ).2).1 = (handle depth N v σ).1 ∧
  is_chain (heap (set_next self handler σ).2) N post = true.
Proof.
  intros Hc Hnot.
  assert (∀ x, x ∈ N :: post →
            heap (set_next self handler σ).2 !! x = heap σ !! x) as Hag.
  { intros x Hx. unfold set_next, mbind, M_bind, setattr_next_handler.
    destruct (heap σ !! self) as [o|]; [|done]. cbn.
    apply lookup_insert_ne. by intros ->. }
  split.
  - rewrite !handle_result.
    by rewrite (run_local (heap σ) _ v post N depth Hc Hag).
  - clear -Hc Hag. revert N Hc Hag.
    induction post as [|n post IH]; intros N Hc Hag;
      apply is_chain_inv in Hc as (o & Ho & Hr).
    + eapply is_chain_last; [|done]. rewrite Hag; [done|left].
    + destruct Hr as [Hn Hr]. eapply is_chain_link; [|done|].
      * rewrite Hag; [done|left].
      * apply IH; [done|]. intros x Hx. apply Hag. by right.
Qed.

Lemma set_next_elsewhere_witness :
  (handle 2 squirrel (VStr "MeatBall") (set_next monkey dog reference).2).1 =
    (handle 2 squirrel (VStr "MeatBall") reference).1 ∧
  is_chain (heap (set_next monkey dog reference).2) squirrel [dog] = true.
Proof.
  apply (set_next_elsewhere reference monkey dog squirrel [dog]
           (VStr "MeatBall") 2).
  - vm_compute. reflexivity.
  - intros H. apply elem_of_cons in H as [H|H]; [discriminate|].
    apply list_elem_of_singleton in H. discriminate.
Defined.

(** A handler made its own successor: a request it matches is still
    acknowledged, and a request it does not match ends in
    [RecursionError] whatever depth is allowed. *)
Theorem set_next_self_loop σ self o v depth :
  heap σ !! self = Some o →
  (py_eq v (VStr (trigger (cls o))) = true →
     (handle (S depth) self v (set_next self self σ).2).1 =
       Return (Some (ack (cls o) v))) ∧
  (py_eq v (VStr (trigger (cls o))) = false →
     (handle depth self v (set_next self self σ).2).1 = RecursionError).
Proof.
  intros Ho. rewrite (set_next_lookup _ _ _ _ Ho). cbn [snd].
  set (σ' := State _ _ _).
  assert (heap σ' !! self = Some (Object (cls o) (Some self))) as Hself
    by apply lookup_insert_eq.
  split; intros Hm.
  - by rewrite (handle_step _ _ _ _ _ Hself); cbn [cls]; rewrite Hm.
  - rewrite handle_result. induction depth as [|d IH]; [done|].
    cbn [run]. rewrite Hself. cbn [cls _next_handler]. by rewrite Hm.
Qed.

Lemma set_next_self_loop_witness :
  (handle 5 dog (VStr "Nut") (set_next dog dog reference).2).1 = RecursionError.
Proof.
  apply (set_next_self_loop reference dog (Object DogHandler None)
           (VStr "Nut") 5); vm_compute; reflexivity.
Defined.

(** * Building chains *)

Lemma new_fresh c σ :
  ∃ r, new c σ =
         (Return r,
          State (<[r := Object c None]> (heap σ)) (stdout σ) (calls σ)) ∧
       heap σ !! r = None.
Proof.
  exists (fresh (dom (heap σ))). split; [done|].
  apply not_elem_of_dom, is_fresh.
Qed.

(** The construction of [__main__], started in any state: it creates
    three new, pairwise distinct handlers, a monkey, a squirrel and a
    dog, linked into the chain monkey > squirrel > dog; the objects that
    existed before are unchanged and nothing is printed. *)
Theorem build_chain_fresh σ :
  ∃ m s d σ',
    build_chain σ = (Return (m, s, d), σ') ∧
    NoDup [m; s; d] ∧
    (∀ x, x ∈ [m; s; d] → heap σ !! x = None) ∧
    is_chain (heap σ') m [s; d] = true ∧
    cls <$> heap σ' !! m = Some MonkeyHandler ∧
    cls <$> heap σ' !! s = Some SquirrelHandler ∧
    cls <$> heap σ' !! d = Some DogHandler ∧
    (∀ r, is_Some (heap σ !! r) → heap σ' !! r = heap σ !! r) ∧
    stdout σ' = stdout σ ∧ calls σ' = calls σ.
Proof.
  destruct (new_fresh MonkeyHandler σ) as (m & Em & Hm).
  set (σ1 := State (<[m:=Object MonkeyHandler None]> (heap σ)) _ _) in Em.
  destruct (new_fresh SquirrelHandler σ1) as (s & Es & Hs).
  set (σ2 := State (<[s:=Object SquirrelHandler None]> (heap σ1)) _ _) in Es.
  destruct (new_fresh DogHandler σ2) as (d & Ed & Hd).
  set (σ3 := State (<[d:=Object DogHandler None]> (heap σ2)) _ _) in Ed.
  cbn [heap σ1 σ2] in Hs, Hd.
  assert (s ≠ m) as Hsm by (intros ->; by rewrite lookup_insert_eq in Hs).
  rewrite lookup_insert_ne in Hs by done.
  assert (d ≠ s) as Hds by (intros ->; by rewrite lookup_insert_eq in Hd).
  rewrite lookup_insert_ne in Hd by done.
  assert (d ≠ m) as Hdm by (intros ->; by rewrite lookup_insert_eq in Hd).
  rewrite lookup_insert_ne in Hd by done.
  assert (heap σ3 !! m = Some (Object MonkeyHandler None)) as H3m.
  { cbn. rewrite !lookup_insert_ne by done. apply lookup_insert_eq. }
  pose proof (set_next_lookup σ3 m s _ H3m) as E4.
  set (σ4 := State _ _ _) in E4.
  assert (heap σ4 !! s = Some (Object SquirrelHandler None)) as H4s.
  { cbn. rewrite !lookup_insert_ne by done. apply lookup_insert_eq. }
  pose proof (set_next_lookup σ4 s d _ H4s) as E5.
  set (σ5 := State _ _ _) in E5.
  exists m, s, d, σ5.
  assert (heap σ5 !! m = Some (Object MonkeyHandler (Some s))) as H5m.
  { cbn. rewrite lookup_insert_ne by done. apply lookup_insert_eq. }
  assert (heap σ5 !! s = Some (Object SquirrelHandler (Some d))) as H5s
    by apply lookup_insert_eq.
  assert (heap σ5 !! d = Some (Object DogHandler None)) as H5d.
  { cbn. rewrite !lookup_insert_ne by done. apply lookup_insert_eq. }
  split; [|split; [|split; [|split; [|split; [|split; [|split]]]]]].
  - unfold build_chain, mbind, M_bind at 1. rewrite Em.
    unfold M_bind at 1. rewrite Es. unfold M_bind at 1. rewrite Ed.
    unfold M_bind at 1. rewrite E4. unfold M_bind at 1. by rewrite E5.
  - repeat (apply NoDup_cons_2;
      [rewrite ?not_elem_of_cons; repeat split;
         (congruence || apply not_elem_of_nil)|]).
    apply NoDup_nil_2.
  - intros x Hx. repeat (apply elem_of_cons in Hx as [->|Hx]; [done|]).
    by apply elem_of_nil in Hx.
  - eapply is_chain_link; [exact H5m|done|].
    eapply is_chain_link; [exact H5s|done|].
    by eapply is_chain_last.
  - by rewrite H5m.
  - by rewrite H5s.
  - by rewrite H5d.
  - split; [|done]. intros r [o Hr]. cbn.
    rewrite !lookup_insert_ne; [done|by intros ->; congruence..].
Qed.

Lemma first_match_cls h h' v l :
  (∀ x, cls <$> h' !! x = cls <$> h !! x) →
  first_match h' v l = first_match h v l.
Proof.
  intros Hcls. induction l as [|x l IH]; [done|]. cbn [first_match].
  specialize (Hcls x).
  destruct (h' !! x) as [o'|], (h !! x) as [o|]; try discriminate; [|done].
  injection Hcls as ->. by rewrite IH.
Qed.

Lemma first_match_app h v l1 l2 :
  (∀ x, x ∈ l1 → is_Some (h !! x)) →
  first_match h v (l1 ++ l2) =
    match first_match h v l1 with
    | Some s => Some s
    | None => first_match h v l2
    end.
Proof.
  induction l1 as [|x l1 IH]; intros Hdom; [done|]. cbn.
  destruct (Hdom x) as [o ->]; [left|].
  destruct (py_eq v (VStr (trigger (cls o)))); [done|].
  apply IH. intros y Hy. apply Hdom. by right.
Qed.

Lemma is_chain_snoc h t ot n on rest : ∀ r,
  is_chain h r rest = true →
  last (r :: rest) = Some t →
  h !! t = Some ot →
  h !! n = Some on → _next_handler on = None →
  n ∉ r :: rest →
  is_chain (<[t := Object (cls ot) (Some n)]> h) r (rest ++ [n]) = true.
Proof.
  induction rest as [|m rest IH]; intros r Hc Hl Ht Hn Hnn Hnot;
    pose proof (is_chain_inv _ _ _ Hc) as (o & Ho & Hr).
  - injection Hl as ->. cbn [app].
    eapply is_chain_link; [apply lookup_insert_eq|done|].
    eapply is_chain_last; [|exact Hnn].
    rewrite lookup_insert_ne; [done|]. intros ->. apply Hnot. by left.
  - destruct Hr as [Hm Hr]. rewrite last_cons_cons in Hl.
    assert (t ≠ r) as Htr.
    { intros ->. apply (is_chain_not_in_rest _ _ _ Hc).
      by apply last_Some_elem_of. }
    cbn [app]. eapply is_chain_link.
    + by rewrite lookup_insert_ne.
    + done.
    + apply IH; try done. intros Hin. apply Hnot. by right.
Qed.

(** Linking a further handler behind the last handler of a chain gives
    the chain extended by that handler, and changes the answer only for
    requests the chain left unhandled: those now get the new handler's
    answer. *)
Theorem set_next_extends_chain σ r rest t n on v depth :
  is_chain (heap σ) r rest = true →
  last (r :: rest) = Some t →
  heap σ !! n = Some on →
  _next_handler on = None →
  n ∉ r :: rest →
  length (r :: rest) < depth →
  is_chain (heap (set_next t n σ).2) r (rest ++ [n]) = true ∧
  (handle depth r v (set_next t n σ).2).1 =
    match (handle depth r v σ).1 with
    | Return None => (handle depth n v σ).1
    | other => other
    end.
Proof.
  intros Hc Hl Hn Hnn Hnot Hd.
  destruct (is_chain_lookup _ _ r t Hc) as [ot Ht];
    [by apply last_Some_elem_of|].
  rewrite (set_next_lookup _ _ _ _ Ht). cbn [snd].
  pose proof (is_chain_snoc _ _ _ _ _ _ _ Hc Hl Ht Hn Hnn Hnot) as Hc'.
  split; [exact Hc'|].
  assert (is_chain (heap σ) n [] = true) as Hcn by by eapply is_chain_last.
  rewrite !handle_result. cbn [heap].
  rewrite (run_chain _ v _ _ depth Hc');
    [|etrans; [apply visited_length|]; cbn; rewrite length_app; cbn in *; lia].
  rewrite (run_chain _ v _ _ depth Hc);
    [|etrans; [apply visited_length|]; cbn in *; lia].
  rewrite (run_chain _ v _ _ depth Hcn);
    [|etrans; [apply visited_length|]; cbn in *; lia].
  cbn [fst].
  rewrite (first_match_cls (heap σ)).
  - change (r :: rest ++ [n]) with ((r :: rest) ++ [n]).
    rewrite first_match_app by (intros x; apply (is_chain_lookup _ _ _ _ Hc)).
    by destruct (first_match (heap σ) v (r :: rest)).
  - intros x. destruct (decide (t = x)) as [->|Hne].
    + by rewrite lookup_insert_eq, Ht.
    + by rewrite lookup_insert_ne.
Qed.

Lemma set_next_extends_chain_witness :
  is_chain (heap (set_next monkey squirrel two_unlinked).2) monkey ([] ++ [squirrel])
    = true ∧
  (handle 3 monkey (VStr "Nut") (set_next monkey squirrel two_unlinked).2).1 =
    match (handle 3 monkey (VStr "Nut") two_unlinked).1 with
    | Return None => (handle 3 squirrel (VStr "Nut") two_unlinked).1
    | other => other
    end.
Proof.
  apply (set_next_extends_chain two_unlinked monkey [] monkey squirrel
           (Object SquirrelHandler None) (VStr "Nut") 3).
  - vm_compute. reflexivity.
  - reflexivity.
  - vm_compute. reflexivity.
  - reflexivity.
  - intros H. apply list_elem_of_singleton in H. discriminate.
  - simpl. lia.
Defined.

(** * The client *)

Lemma bind_Return {A B} (m : M A) (f : A → M B) σ a σ' :
  m σ = (Return a, σ') → (m ≫= f) σ = f a σ'.
Proof. intros H. unfold mbind, M_bind. by rewrite H. Qed.

Lemma bind_RecursionError {A B} (m : M A) (f : A → M B) σ σ' :
  m σ = (RecursionError, σ') → (m ≫= f) σ = (RecursionError, σ').
Proof. intros H. unfold mbind, M_bind. by rewrite H. Qed.

Lemma append_empty_r (s : string) : s +:+ EmptyString = s.
Proof.
  induction s as [|a s IH]; [done|].
  change (String a (s +:+ EmptyString) = String a s). by f_equal.
Qed.

Lemma client_step_return depth r food σ x :
  (run depth (heap σ) r (VStr food)).1 = Return x →
  client_step depth r food σ =
    (Return (),
     State (heap σ) (stdout σ ++ [question food; reply food x])
       (calls σ ++
          ((λ y, (y, VStr food)) <$> (run depth (heap σ) r (VStr food)).2))).
Proof.
  intros H. unfold client_step, mbind, M_bind at 1, print at 1.
  unfold M_bind at 1. rewrite handle_run. cbn [heap stdout calls fst snd].
  rewrite H. fold (question food). destruct x as [s|].
  - destruct (run_ack _ _ _ _ _ H) as (c & _ & ->).
    destruct (ack_nonempty c (VStr food)) as (a & s' & E).
    rewrite E. unfold print, reply. cbn [heap stdout calls].
    by rewrite append_empty_r, <- app_assoc.
  - unfold print, reply. cbn [heap stdout calls].
    by rewrite append_empty_r, <- app_assoc.
Qed.

Lemma client_step_RecursionError depth r food σ :
  (run depth (heap σ) r (VStr food)).1 = RecursionError →
  client_step depth r food σ =
    (RecursionError,
     State (heap σ) (stdout σ ++ [question food])
       (calls σ ++
          ((λ y, (y, VStr food)) <$> (run depth (heap σ) r (VStr food)).2))).
Proof.
  intros H. unfold client_step, mbind, M_bind at 1, print at 1.
  unfold M_bind at 1. rewrite handle_run. cbn [heap stdout calls fst snd].
  by rewrite H.
Qed.

Lemma first_match_coffee h l : first_match h (VStr "Cup of coffee") l = None.
Proof.
  induction l as [|x l IH]; [done|]. cbn [first_match].
  destruct (h !! x) as [o|]; [|done]. by destruct (cls o).
Qed.

(** [client_code] on a chain, with a depth that covers it: it returns
    normally, leaves the object store as it was, and writes six strings:
    for each of the three foods the question, then the acknowledgment of
    the first handler of the chain whose trigger is the food, or the
    "left untouched" line when there is none; no handler takes the cup
    of coffee. *)
Theorem client_code_chain σ r rest depth :
  is_chain (heap σ) r rest = true →
  length (r :: rest) ≤ depth →
  (client_code depth r σ).1 = Return () ∧
  heap (client_code depth r σ).2 = heap σ ∧
  stdout (client_code depth r σ).2 =
    stdout σ ++
      [question "Nut";
       reply "Nut" (first_match (heap σ) (VStr "Nut") (r :: rest));
       question "Banana";
       reply "Banana" (first_match (heap σ) (VStr "Banana") (r :: rest));
       question "Cup of coffee";
       " Cup of coffee was left untouched."].
Proof.
  intros Hc Hd.
  assert (∀ v, run depth (heap σ) r v =
                 (Return (first_match (heap σ) v (r :: rest)),
                  visited (heap σ) v (r :: rest))) as Hrun.
  { intros v. apply run_chain; [done|].
    etrans; [apply visited_length|done]. }
  unfold client_code.
  rewrite (bind_Return _ _ _ _ _
             (client_step_return depth r "Nut" σ _ (f_equal fst (Hrun _)))).
  set (σ1 := State _ _ _).
  rewrite (bind_Return _ _ _ _ _
             (client_step_return depth r "Banana" σ1 _ (f_equal fst (Hrun _)))).
  set (σ2 := State _ _ _).
  rewrite (client_step_return depth r "Cup of coffee" σ2 _
             (f_equal fst (Hrun _))).
  cbn [fst snd heap stdout σ1 σ2]. rewrite first_match_coffee.
  repeat split. by rewrite <- !app_assoc.
Qed.

Lemma client_code_chain_witness :
  (client_code 3 squirrel reference).1 = Return () ∧
  heap (client_code 3 squirrel reference).2 = heap reference ∧
  stdout (client_code 3 squirrel reference).2 =
    stdout reference ++
      [question "Nut";
       reply "Nut" (first_match (heap reference) (VStr "Nut") [squirrel; dog]);
       question "Banana";
       reply "Banana"
         (first_match (heap reference) (VStr "Banana") [squirrel; dog]);
       question "Cup of coffee";
       " Cup of coffee was left untouched."].
Proof.
  apply (client_code_chain reference squirrel [dog] 3).
  - vm_compute. reflexivity.
  - simpl. lia.
Defined.

(** An exception of the first dispatch leaves [client_code] at once:
    when [handle] on ["Nut"] ends in [RecursionError], so does
    [client_code], after writing only the first question; the object
    store is unchanged. *)
Theorem client_code_RecursionError σ r depth :
  (handle depth r (VStr "Nut") σ).1 = RecursionError →
  (client_code depth r σ).1 = RecursionError ∧
  heap (client_code depth r σ).2 = heap σ ∧
  stdout (client_code depth r σ).2 = stdout σ ++ [question "Nut"].
Proof.
  rewrite handle_result. intros H.
  unfold client_code.
  by rewrite (bind_RecursionError _ _ _ _
                (client_step_RecursionError depth r "Nut" σ H)).
Qed.

Lemma client_code_RecursionError_witness :
  (client_code 4 monkey loop).1 = RecursionError ∧
  heap (client_code 4 monkey loop).2 = heap loop ∧
  stdout (client_code 4 monkey loop).2 = stdout loop ++ [question "Nut"].
Proof.
  apply (client_code_RecursionError loop monkey 4).
  vm_compute. reflexivity.
Defined.

(** * The iterator *)

Module IterFacts.
Import Iter.

(** ** The order on strings and [sorted] *)

Lemma ascii_compare_refl a : Ascii.compare a a = Eq.
Proof. unfold Ascii.compare. apply N.compare_refl. Qed.

Lemma ascii_compare_lt_trans a b c :
  Ascii.compare a b = Lt → Ascii.compare b c = Lt → Ascii.compare a c = Lt.
Proof.
  unfold Ascii.compare. rewrite !N.compare_lt_iff. apply N.lt_trans.
Qed.

#[global] Instance str_le_trans : Transitive str_le.
Proof.
  unfold str_le, String.leb. intros s.
  induction s as [|a s IH]; intros t u Hst Htu.
  - by destruct u.
  - destruct t as [|b t]; [done|]. destruct u as [|c u]; [done|].
    cbn [String.compare] in *.
    destruct (Ascii.compare a b) eqn:Hab; [| |done];
      destruct (Ascii.compare b c) eqn:Hbc; try done.
    + apply Ascii.compare_eq_iff in Hab as ->.
      apply Ascii.compare_eq_iff in Hbc as ->.
      rewrite ascii_compare_refl. by apply (IH t u).
    + apply Ascii.compare_eq_iff in Hab as ->. by rewrite Hbc.
    + apply Ascii.compare_eq_iff in Hbc as <-. by rewrite Hab.
    + by rewrite (ascii_compare_lt_trans a b c).
Qed.

#[global] Instance str_le_total : Total str_le.
Proof. intros s t. apply String.leb_total. Qed.

#[global] Instance str_le_antisym : AntiSymm eq str_le.
Proof. intros s t. apply String.leb_antisym. Qed.

Lemma sorted_Permutation l : sorted l ≡ₚ l.
Proof. apply merge_sort_Permutation. Qed.

Lemma sorted_StronglySorted l : StronglySorted str_le (sorted l).
Proof. apply StronglySorted_merge_sort; apply _. Qed.

(** [sorted l] is the only ascending rearrangement of [l]. *)
Lemma sorted_unique l l' :
  l' ≡ₚ l → StronglySorted str_le l' → l' = sorted l.
Proof.
  intros Hp Hs. apply (StronglySorted_unique str_le); [done| |].
  - apply sorted_StronglySorted.
  - by rewrite sorted_Permutation.
Qed.

Lemma in_order_length rev l : length (in_order rev l) = length l.
Proof.
  unfold in_order. destruct rev; rewrite ?length_reverse;
    apply Permutation_length, sorted_Permutation.
Qed.

Lemma in_order_Permutation rev l : in_order rev l ≡ₚ l.
Proof.
  unfold in_order. destruct rev; rewrite ?reverse_Permutation;
    apply sorted_Permutation.
Qed.

(** ** One call of [__next__] *)

Lemma next_primed σ it c rev s p :
  iterators σ !! it = Some (MkIterator c rev (Some s) p) →
  next it σ =
    match s !! p with
    | Some x => (Ok x, put_iterator it (MkIterator c rev (Some s) (S p)) σ)
    | None => (Raise StopIteration, σ)
    end.
Proof.
  intros Hit. unfold next, mbind, P_bind, iter_read. rewrite Hit.
  cbn. by destruct (s !! p).
Qed.

Lemma next_unprimed σ it c rev p lr l :
  iterators σ !! it = Some (MkIterator c rev None p) →
  collections σ !! c = Some (MkWordCollection lr) →
  lists σ !! lr = Some l →
  next it σ =
    next it (put_iterator it (MkIterator c rev (Some (in_order rev l)) p) σ).
Proof.
  intros Hit Hc Hl.
  rewrite (next_primed (put_iterator _ _ σ) it c rev (in_order rev l) p)
    by apply lookup_insert_eq.
  unfold next, mbind, P_bind, iter_read, coll_read, list_read.
  rewrite Hit. cbn. rewrite Hc. cbn. rewrite Hl. cbn.
  destruct (in_order rev l !! p); [|done].
  unfold put_iterator. cbn. by rewrite insert_insert_eq.
Qed.

Lemma put_iterator_id σ it x :
  iterators σ !! it = Some x → put_iterator it x σ = σ.
Proof.
  intros H. destruct σ. unfold put_iterator. cbn in *. by rewrite insert_id.
Qed.

Lemma put_iterator_twice σ it x y :
  put_iterator it x (put_iterator it y σ) = put_iterator it x σ.
Proof. unfold put_iterator. cbn. by rewrite insert_insert_eq. Qed.

(** ** Consuming an iterator *)

Lemma drain_primed fuel : ∀ σ it c rev s p,
  iterators σ !! it = Some (MkIterator c rev (Some s) p) →
  length s - p < fuel →
  drain fuel it σ =
    (Ok (drop p s),
     put_iterator it (MkIterator c rev (Some s) (p `max` length s)) σ).
Proof.
  induction fuel as [|f IH]; intros σ it c rev s p Hit Hf; [lia|].
  cbn [drain]. rewrite (next_primed _ _ _ _ _ _ Hit).
  destruct (s !! p) as [x|] eqn:Hp.
  - apply lookup_lt_Some in Hp as Hlt.
    unfold mbind, P_bind.
    rewrite (IH _ it c rev s (S p)) by (apply lookup_insert_eq || lia).
    cbn. rewrite put_iterator_twice, (drop_S _ _ _ Hp).
    by replace (S p `max` length s) with (p `max` length s) by lia.
  - apply lookup_ge_None in Hp. rewrite drop_ge by done.
    replace (p `max` length s) with p by lia.
    by rewrite put_iterator_id.
Qed.

Lemma drain_unprimed fuel σ it c rev p lr l :
  iterators σ !! it = Some (MkIterator c rev None p) →
  collections σ !! c = Some (MkWordCollection lr) →
  lists σ !! lr = Some l →
  length l - p < fuel →
  drain fuel it σ =
    (Ok (drop p (in_order rev l)),
     put_iterator it
       (MkIterator c rev (Some (in_order rev l)) (p `max` length l)) σ).
Proof.
  intros Hit Hc Hl Hf. destruct fuel as [|f]; [lia|].
  set (σ1 := put_iterator it (MkIterator c rev (Some (in_order rev l)) p) σ).
  assert (drain (S f) it σ = drain (S f) it σ1) as ->.
  { cbn [drain]. by rewrite (next_unprimed _ _ _ _ _ _ _ Hit Hc Hl). }
  rewrite (drain_primed (S f) σ1 it c rev (in_order rev l) p);
    [|apply lookup_insert_eq|rewrite in_order_length; lia].
  unfold σ1. by rewrite put_iterator_twice, in_order_length.
Qed.

Lemma bind_Ok {A B} (m : P A) (f : A → P B) σ a σ' :
  m σ = (Ok a, σ') → (m ≫= f) σ = f a σ'.
Proof. intros H. unfold mbind, P_bind. by rewrite H. Qed.

Lemma bind_Raise {A B} (m : P A) (f : A → P B) σ e σ' :
  m σ = (Raise e, σ') → (m ≫= f) σ = (Raise e, σ').
Proof. intros H. unfold mbind, P_bind. by rewrite H. Qed.

Lemma new_iterator c rev σ :
  ∃ it, iterators σ !! it = None ∧
        AlphabeticalOrderIterator_new c rev σ =
          (Ok it, put_iterator it (MkIterator c rev None 0) σ).
Proof.
  exists (fresh (dom (iterators σ))). split; [|done].
  apply not_elem_of_dom, is_fresh.
Qed.

Lemma add_item_eq σ c lr l x :
  collections σ !! c = Some (MkWordCollection lr) →
  lists σ !! lr = Some l →
  add_item c x σ =
    (Ok (),
     Store (<[lr := l ++ [x]]> (lists σ)) (collections σ) (iterators σ)
       (output σ)).
Proof.
  intros Hc Hl. unfold add_item, mbind, P_bind, coll_read, list_append.
  rewrite Hc. cbn. by rewrite Hl.
Qed.

(** Iterating a collection ([list(collection)], and so [join]) gives
    the items the collection holds in ascending order: a rearrangement
    of its list in which every item is at most the items after it.  The
    collection and its list are not changed and nothing is printed. *)
Theorem to_list_collection_sorted σ c lr l fuel :
  collections σ !! c = Some (MkWordCollection lr) →
  lists σ !! lr = Some l →
  length l < fuel →
  ∃ items σ',
    to_list fuel (ICollection c) σ = (Ok items, σ') ∧
    items ≡ₚ l ∧ StronglySorted str_le items ∧
    lists σ' = lists σ ∧ collections σ' = collections σ ∧
    output σ' = output σ.
Proof.
  intros Hc Hl Hf.
  destruct (new_iterator c false σ) as (it & Hfresh & Hnew).
  unfold to_list, iter, iter_collection_asc.
  rewrite (bind_Ok _ _ _ _ _ Hnew).
  rewrite (drain_unprimed fuel _ it c false 0 lr l);
    [|apply lookup_insert_eq|done|done|lia].
  eexists _, _. split; [done|]. cbn.
  repeat split; [apply sorted_Permutation|apply sorted_StronglySorted].
Qed.

Lemma to_list_collection_sorted_witness :
  ∃ items σ',
    to_list 4 (ICollection sample_collection) sample = (Ok items, σ') ∧
    items ≡ₚ ["B"; "A"; "C"] ∧ StronglySorted str_le items ∧
    lists σ' = lists sample ∧ collections σ' = collections sample ∧
    output σ' = output sample.
Proof.
  apply (to_list_collection_sorted sample sample_collection sample_list
           ["B"; "A"; "C"] 4).
  - vm_compute. reflexivity.
  - vm_compute. reflexivity.
  - simpl. lia.
Defined.

(** The reverse iterator of a collection yields the items of the
    straight traversal in the opposite order. *)
Theorem reverse_traversal σ c lr l fuel :
  collections σ !! c = Some (MkWordCollection lr) →
  lists σ !! lr = Some l →
  length l < fuel →
  ∃ items,
    (to_list fuel (ICollection c) σ).1 = Ok items ∧
    ((get_reverse_iterator c ≫= λ it, to_list fuel (IIterator it)) σ).1 =
      Ok (reverse items).
Proof.
  intros Hc Hl Hf. exists (sorted l). split.
  - destruct (new_iterator c false σ) as (it & Hfresh & Hnew).
    unfold to_list, iter, iter_collection_asc.
    rewrite (bind_Ok _ _ _ _ _ Hnew).
    by rewrite (drain_unprimed fuel _ it c false 0 lr l);
      [|apply lookup_insert_eq|done|done|lia].
  - destruct (new_iterator c true σ) as (it & Hfresh & Hnew).
    unfold get_reverse_iterator. rewrite (bind_Ok _ _ _ _ _ Hnew).
    unfold to_list, iter.
    rewrite (bind_Ok _ _ _ it _ eq_refl).
    by rewrite (drain_unprimed fuel _ it c true 0 lr l);
      [|apply lookup_insert_eq|done|done|lia].
Qed.

Lemma reverse_traversal_witness :
  ∃ items,
    (to_list 4 (ICollection sample_collection) sample).1 = Ok items ∧
    ((get_reverse_iterator sample_collection ≫=
        λ it, to_list 4 (IIterator it)) sample).1 = Ok (reverse items).
Proof.
  apply (reverse_traversal sample sample_collection sample_list
           ["B"; "A"; "C"] 4).
  - vm_compute. reflexivity.
  - vm_compute. reflexivity.
  - simpl. lia.
Defined.

(** ** What [__next__] changes and what it reads *)

Lemma next_cases σ it :
  (next it σ).2 = σ ∨ ∃ x, (next it σ).2 = put_iterator it x σ.
Proof.
  unfold next, mbind, P_bind, iter_read, coll_read, list_read, iter_write,
    mret, P_ret, raise, put_iterator.
  repeat (case_match; simplify_eq/=); eauto.
  all: right; eexists; by rewrite insert_insert_eq.
Qed.

Lemma next_ext σ1 σ2 it :
  lists σ1 = lists σ2 →
  collections σ1 = collections σ2 →
  iterators σ1 !! it = iterators σ2 !! it →
  (next it σ1).1 = (next it σ2).1.
Proof.
  destruct σ1 as [l1 c1 i1 o1], σ2 as [l2 c2 i2 o2]. cbn.
  intros -> -> Hi.
  unfold next, mbind, P_bind, iter_read, coll_read, list_read, iter_write,
    mret, P_ret, raise. cbn. rewrite Hi.
  repeat (case_match; simplify_eq/=); eauto.
Qed.

Lemma getitem_eq σ c lr l i :
  collections σ !! c = Some (MkWordCollection lr) →
  lists σ !! lr = Some l →
  getitem c i σ =
    (match norm_index (length l) i ≫= (l !!.) with
     | Some x => Ok x
     | None => Raise IndexError
     end, σ).
Proof.
  intros Hc Hl. unfold getitem, mbind at 1 2, P_bind, coll_read, list_read.
  rewrite Hc. cbn. rewrite Hl. unfold list_getitem.
  by destruct (norm_index (length l) i ≫= (l !!.)).
Qed.

Lemma getitem_ext σ1 σ2 c i :
  lists σ1 = lists σ2 →
  collections σ1 = collections σ2 →
  (getitem c i σ1).1 = (getitem c i σ2).1.
Proof.
  destruct σ1 as [l1 c1 i1 o1], σ2 as [l2 c2 i2 o2]. cbn.
  intros -> ->.
  unfold getitem, coll_read, list_read.
  unfold mbind at 1 2 3 4. unfold P_bind. cbn.
  destruct (c2 !! c) as [wc|]; [|done]. cbn.
  destruct (l2 !! _collection wc) as [l|]; [|done].
  unfold list_getitem. by destruct (norm_index (length l) i ≫= (l !!.)).
Qed.

(** [__next__] changes nothing but the iterator it is called on: the
    lists, the collections, the output and every other iterator stay as
    they are, so [__getitem__] answers after the call as before it. *)
Theorem next_frame σ it :
  lists (next it σ).2 = lists σ ∧
  collections (next it σ).2 = collections σ ∧
  output (next it σ).2 = output σ ∧
  (∀ it', it' ≠ it → iterators (next it σ).2 !! it' = iterators σ !! it') ∧
  (∀ c i, (getitem c i (next it σ).2).1 = (getitem c i σ).1).
Proof.
  assert (lists (next it σ).2 = lists σ ∧
          collections (next it σ).2 = collections σ ∧
          output (next it σ).2 = output σ ∧
          (∀ it', it' ≠ it →
             iterators (next it σ).2 !! it' = iterators σ !! it'))
    as (Hl & Hc & Ho & Hi).
  { destruct (next_cases σ it) as [->|[x ->]]; [done|]. cbn.
    repeat split. intros it' Hne. by apply lookup_insert_ne. }
  repeat split; try done. intros c i. by apply getitem_ext.
Qed.

Lemma next_frame_witness :
  iterators (next 0 (put_iterator 1 (MkIterator 0 true None 0)
                       (put_iterator 0 (MkIterator 0 false None 0) sample))).2
    !! 1 = Some (MkIterator 0 true None 0).
Proof.
  rewrite (proj1 (proj2 (proj2 (proj2 (next_frame _ 0)))) 1) by lia.
  apply lookup_insert_eq.
Defined.

(** Two iterators do not disturb each other: a call of [__next__] on
    one does not change what the next call on another one returns. *)
Theorem next_independent σ it1 it2 :
  it1 ≠ it2 →
  (next it2 (next it1 σ).2).1 = (next it2 σ).1.
Proof.
  intros Hne. apply next_ext.
  - destruct (next_cases σ it1) as [->|[x ->]]; done.
  - destruct (next_cases σ it1) as [->|[x ->]]; done.
  - destruct (next_cases σ it1) as [->|[x ->]]; [done|].
    cbn. by apply lookup_insert_ne.
Qed.

Lemma next_independent_witness :
  (next 1 (next 0 (put_iterator 1 (MkIterator 0 true None 0)
                     (put_iterator 0 (MkIterator 0 false None 0) sample))).2).1 =
  (next 1 (put_iterator 1 (MkIterator 0 true None 0)
             (put_iterator 0 (MkIterator 0 false None 0) sample))).1.
Proof. apply (next_independent _ 0 1). lia. Defined.

(** Once [__next__] has raised [StopIteration] it raises it on every
    later call, and without changing anything, whatever has happened to
    the collection, its list or other iterators in between. *)
Theorem StopIteration_is_final σ it σ' σ'' :
  next it σ = (Raise StopIteration, σ') →
  iterators σ'' !! it = iterators σ' !! it →
  next it σ'' = (Raise StopIteration, σ'').
Proof.
  intros H Heq.
  destruct (iterators σ !! it) as [[c rev [s|] p]|] eqn:Hit.
  - rewrite (next_primed _ _ _ _ _ _ Hit) in H.
    destruct (s !! p) eqn:Hp; [discriminate|]. injection H as <-.
    rewrite Hit in Heq. by rewrite (next_primed _ _ _ _ _ _ Heq), Hp.
  - destruct (collections σ !! c) as [[lr]|] eqn:Hc.
    + destruct (lists σ !! lr) as [l|] eqn:Hl.
      * rewrite (next_unprimed _ _ _ _ _ _ _ Hit Hc Hl) in H.
        rewrite (next_primed
                   (put_iterator it
                      (MkIterator c rev (Some (in_order rev l)) p) σ)
                   it c rev (in_order rev l) p) in H
          by apply lookup_insert_eq.
        destruct (in_order rev l !! p) eqn:Hp; [discriminate|].
        injection H as <-. cbn in Heq. rewrite lookup_insert_eq in Heq.
        by rewrite (next_primed _ _ _ _ _ _ Heq), Hp.
      * unfold next, mbind, P_bind, iter_read, coll_read, list_read in H.
        rewrite Hit in H. cbn in H. rewrite Hc in H. cbn in H.
        rewrite Hl in H. discriminate.
    + unfold next, mbind, P_bind, iter_read, coll_read in H.
      rewrite Hit in H. cbn in H. rewrite Hc in H. discriminate.
  - unfold next, mbind, P_bind, iter_read in H. rewrite Hit in H.
    discriminate.
Qed.

Lemma StopIteration_is_final_witness :
  next 0 (add_item sample_collection "D"
            (put_iterator 0 (MkIterator 0 false (Some ["A"; "B"; "C"]) 3)
               sample)).2 =
    (Raise StopIteration,
     (add_item sample_collection "D"
        (put_iterator 0 (MkIterator 0 false (Some ["A"; "B"; "C"]) 3)
           sample)).2).
Proof.
  apply (StopIteration_is_final
           (put_iterator 0 (MkIterator 0 false (Some ["A"; "B"; "C"]) 3) sample)
           0
           (put_iterator 0 (MkIterator 0 false (Some ["A"; "B"; "C"]) 3) sample)).
  - vm_compute. reflexivity.
  - vm_compute. reflexivity.
Defined.

(** An iterator sorts on its first [__next__], not when it is created:
    an item added to the collection between the creation of the iterator
    and its first [__next__] is part of the traversal, and an item added
    after the first [__next__] is not. *)
Theorem iterator_snapshot σ c lr l rev x fuel :
  collections σ !! c = Some (MkWordCollection lr) →
  lists σ !! lr = Some l →
  S (length l) < fuel →
  ((it ← AlphabeticalOrderIterator_new c rev;
    _ ← add_item c x;
    drain fuel it) σ).1 = Ok (in_order rev (l ++ [x])) ∧
  ((it ← AlphabeticalOrderIterator_new c rev;
    first ← next it;
    _ ← add_item c x;
    rest ← drain fuel it;
    mret (first :: rest)) σ).1 =
    match in_order rev l with
    | [] => Raise StopIteration
    | items => Ok items
    end.
Proof.
  intros Hc Hl Hf.
  destruct (new_iterator c rev σ) as (it & Hfresh & Hnew).
  set (σ0 := put_iterator it (MkIterator c rev None 0) σ) in Hnew.
  split.
  - rewrite (bind_Ok _ _ _ _ _ Hnew).
    rewrite (bind_Ok _ _ _ _ _ (add_item_eq σ0 c lr l x Hc Hl)).
    rewrite (drain_unprimed fuel _ it c rev 0 lr (l ++ [x]));
      [done|apply lookup_insert_eq|done|apply lookup_insert_eq|].
    rewrite length_app. cbn. lia.
  - rewrite (bind_Ok _ _ _ _ _ Hnew).
    assert (iterators σ0 !! it = Some (MkIterator c rev None 0)) as Hit
      by apply lookup_insert_eq.
    pose proof (next_unprimed σ0 it c rev 0 lr l Hit Hc Hl) as Hn.
    rewrite (next_primed
               (put_iterator it (MkIterator c rev (Some (in_order rev l)) 0) σ0)
               it c rev (in_order rev l) 0) in Hn
      by apply lookup_insert_eq.
    destruct (in_order rev l) as [|y items] eqn:Hord.
    + cbn in Hn. by rewrite (bind_Raise _ _ _ _ _ Hn).
    + cbn [lookup list_lookup] in Hn.
      rewrite (bind_Ok _ _ _ _ _ Hn).
      set (σ1 := put_iterator it _ _).
      rewrite (bind_Ok _ _ _ _ _ (add_item_eq σ1 c lr l x Hc Hl)).
      set (σ2 := Store _ _ _ _).
      assert (drain fuel it σ2 =
                (Ok (drop 1 (y :: items)),
                 put_iterator it
                   (MkIterator c rev (Some (y :: items))
                      (1 `max` length (y :: items))) σ2)) as Hd.
      { apply drain_primed.
        - unfold σ2, σ1. cbn. apply lookup_insert_eq.
        - apply (f_equal length) in Hord. rewrite in_order_length in Hord.
          rewrite <- Hord. lia. }
      by rewrite (bind_Ok _ _ _ _ _ Hd).
Qed.

Lemma iterator_snapshot_witness :
  ((it ← AlphabeticalOrderIterator_new sample_collection false;
    _ ← add_item sample_collection "Aa";
    drain 5 it) sample).1 = Ok (in_order false (["B"; "A"; "C"] ++ ["Aa"])) ∧
  ((it ← AlphabeticalOrderIterator_new sample_collection false;
    first ← next it;
    _ ← add_item sample_collection "Aa";
    rest ← drain 5 it;
    mret (first :: rest)) sample).1 =
    match in_order false ["B"; "A"; "C"] with
    | [] => Raise StopIteration
    | items => Ok items
    end.
Proof.
  apply (iterator_snapshot sample sample_collection sample_list
           ["B"; "A"; "C"] false "Aa" 5).
  - vm_compute. reflexivity.
  - vm_compute. reflexivity.
  - simpl. lia.
Defined.

(** ** The collection *)

Lemma norm_index_spec n i :
  norm_index n i =
    if decide (0 ≤ i < Z.of_nat n)%Z then Some (Z.to_nat i)
    else if decide (- Z.of_nat n ≤ i < 0)%Z
         then Some (Z.to_nat (Z.of_nat n + i))
         else None.
Proof.
  unfold norm_index.
  destruct (Z.leb_spec 0 i), (Z.ltb_spec i (Z.of_nat n)),
    (Z.leb_spec (- Z.of_nat n) i);
    repeat case_decide; (done || lia).
Qed.

(** [collection[i]] follows the indexing of the list it holds: an index
    from [-len] up to [len - 1] gives the item at position [i mod len],
    any other index raises [IndexError] (so does every index on an empty
    collection); the store is not changed. *)
Theorem getitem_index σ c lr l i :
  collections σ !! c = Some (MkWordCollection lr) →
  lists σ !! lr = Some l →
  (getitem c i σ).2 = σ ∧
  ((- Z.of_nat (length l) ≤ i < Z.of_nat (length l))%Z →
     ∃ x, l !! Z.to_nat (i `mod` Z.of_nat (length l)) = Some x ∧
          (getitem c i σ).1 = Ok x) ∧
  (¬ (- Z.of_nat (length l) ≤ i < Z.of_nat (length l))%Z →
     (getitem c i σ).1 = Raise IndexError).
Proof.
  intros Hc Hl. rewrite (getitem_eq _ _ _ _ _ Hc Hl). cbn [fst snd].
  rewrite norm_index_spec. split; [done|]. split.
  - intros Hi. destruct (decide (0 ≤ i < Z.of_nat (length l))%Z) as [Hp|Hp].
    + rewrite Z.mod_small by done.
      destruct (lookup_lt_is_Some_2 l (Z.to_nat i)) as [x Hx]; [lia|].
      exists x. cbn. by rewrite Hx.
    + rewrite decide_True by lia.
      replace (i `mod` Z.of_nat (length l))%Z with (Z.of_nat (length l) + i)%Z
        by (apply (Z.mod_unique_pos i _ (-1)); lia).
      destruct (lookup_lt_is_Some_2 l (Z.to_nat (Z.of_nat (length l) + i)))
        as [x Hx]; [lia|].
      exists x. cbn. by rewrite Hx.
  - intros Hi. rewrite !decide_False by lia. done.
Qed.

Lemma getitem_index_witness :
  (getitem sample_collection (-3) sample).2 = sample ∧
  ((- Z.of_nat (length ["B"; "A"; "C"]) ≤ -3
      < Z.of_nat (length ["B"; "A"; "C"]))%Z →
     ∃ x, ["B"; "A"; "C"] !!
            Z.to_nat (-3 `mod` Z.of_nat (length ["B"; "A"; "C"])) = Some x ∧
          (getitem sample_collection (-3) sample).1 = Ok x) ∧
  (¬ (- Z.of_nat (length ["B"; "A"; "C"]) ≤ -3
        < Z.of_nat (length ["B"; "A"; "C"]))%Z →
     (getitem sample_collection (-3) sample).1 = Raise IndexError).
Proof.
  apply (getitem_index sample sample_collection sample_list
           ["B"; "A"; "C"] (-3)).
  - vm_compute. reflexivity.
  - vm_compute. reflexivity.
Defined.

(** [add_item] appends: the new item is then the last one, found at
    index [-1] and at the index that was out of range before, and the
    items at the earlier indices are the same as before. *)
Theorem add_item_getitem σ c lr l x :
  collections σ !! c = Some (MkWordCollection lr) →
  lists σ !! lr = Some l →
  (getitem c (-1) (add_item c x σ).2).1 = Ok x ∧
  (getitem c (Z.of_nat (length l)) (add_item c x σ).2).1 = Ok x ∧
  (getitem c (Z.of_nat (length l)) σ).1 = Raise IndexError ∧
  (∀ i, (0 ≤ i < Z.of_nat (length l))%Z →
     (getitem c i (add_item c x σ).2).1 = (getitem c i σ).1).
Proof.
  intros Hc Hl. rewrite (add_item_eq _ _ _ _ _ Hc Hl). cbn [snd].
  set (σ' := Store _ _ _ _).
  assert (lists σ' !! lr = Some (l ++ [x])) as Hl' by apply lookup_insert_eq.
  rewrite !(getitem_eq σ' _ _ _ _ Hc Hl'), !(getitem_eq σ _ _ _ _ Hc Hl).
  cbn [fst]. rewrite !norm_index_spec, length_app. cbn [length].
  repeat split.
  - rewrite decide_False, decide_True by lia.
    replace (Z.to_nat (Z.of_nat (length l + 1) + -1)) with (length l) by lia.
    cbn. by rewrite list_lookup_middle.
  - rewrite decide_True by lia. rewrite Nat2Z.id.
    cbn. by rewrite list_lookup_middle.
  - by rewrite !decide_False by lia.
  - intros i Hi.
    rewrite (getitem_eq σ' _ _ _ _ Hc Hl'), (getitem_eq σ _ _ _ _ Hc Hl).
    cbn [fst]. rewrite !norm_index_spec, length_app. cbn [length].
    rewrite !decide_True by lia. cbn.
    by rewrite lookup_app_l by lia.
Qed.

Lemma add_item_getitem_witness :
  (getitem sample_collection (-1) (add_item sample_collection "D" sample).2).1
    = Ok "D".
Proof.
  apply (add_item_getitem sample sample_collection sample_list
           ["B"; "A"; "C"] "D").
  - vm_compute. reflexivity.
  - vm_compute. reflexivity.
Defined.

Lemma WordCollection_new_nonempty σ lr y l :
  lists σ !! lr = Some (y :: l) →
  WordCollection_new (Some lr) σ = coll_alloc (MkWordCollection lr) σ.
Proof.
  intros Hl. unfold WordCollection_new, mbind, P_bind, list_read.
  by rewrite Hl.
Qed.

Lemma WordCollection_new_empty σ lr :
  lists σ !! lr = Some [] →
  WordCollection_new (Some lr) σ =
    (list_alloc [] ≫= λ target, coll_alloc (MkWordCollection target)) σ.
Proof.
  intros Hl. unfold WordCollection_new, mbind, P_bind, list_read.
  by rewrite Hl.
Qed.

(** [WordCollection(lst)] keeps a non-empty list by reference and
    replaces an empty one by a new list: after [add_item] on the new
    collection, a list that was non-empty has the item appended, while a
    list that was empty is still empty and the item is in a different
    list, which the collection holds. *)
Theorem WordCollection_new_list σ lr l x :
  lists σ !! lr = Some l →
  ∃ c lr' σ',
    (c ← WordCollection_new (Some lr); _ ← add_item c x; mret c) σ =
      (Ok c, σ') ∧
    collections σ !! c = None ∧
    collections σ' !! c = Some (MkWordCollection lr') ∧
    lists σ' !! lr' = Some (l ++ [x]) ∧
    (l ≠ [] → lr' = lr) ∧
    (l = [] → lr' ≠ lr ∧ lists σ' !! lr = Some []).
Proof.
  intros Hl.
  assert (collections σ !! fresh (dom (collections σ)) = None) as Hc
    by apply not_elem_of_dom, is_fresh.
  set (c := fresh (dom (collections σ))) in *.
  destruct l as [|y l].
  - assert (lists σ !! fresh (dom (lists σ)) = None) as Hf
      by apply not_elem_of_dom, is_fresh.
    set (lr' := fresh (dom (lists σ))) in *.
    assert (lr' ≠ lr) as Hne by congruence.
    set (σ2 := Store (<[lr' := []]> (lists σ))
                 (<[c := MkWordCollection lr']> (collections σ))
                 (iterators σ) (output σ)).
    assert (WordCollection_new (Some lr) σ = (Ok c, σ2)) as Hnew
      by by rewrite (WordCollection_new_empty _ _ Hl).
    eexists c, lr', _. split; [|split; [done|]].
    + rewrite (bind_Ok _ _ _ _ _ Hnew).
      rewrite (bind_Ok _ _ _ _ _
                 (add_item_eq σ2 c lr' [] x
                    (lookup_insert_eq _ _ _) (lookup_insert_eq _ _ _))).
      reflexivity.
    + cbn. rewrite !lookup_insert_eq. repeat split; try done.
      by rewrite !lookup_insert_ne.
  - set (σ2 := Store (lists σ)
                 (<[c := MkWordCollection lr]> (collections σ))
                 (iterators σ) (output σ)).
    assert (WordCollection_new (Some lr) σ = (Ok c, σ2)) as Hnew
      by by rewrite (WordCollection_new_nonempty _ _ _ _ Hl).
    eexists c, lr, _. split; [|split; [done|]].
    + rewrite (bind_Ok _ _ _ _ _ Hnew).
      rewrite (bind_Ok _ _ _ _ _
                 (add_item_eq σ2 c lr (y :: l) x (lookup_insert_eq _ _ _) Hl)).
      reflexivity.
    + cbn. rewrite !lookup_insert_eq. repeat split; done.
Qed.

Lemma WordCollection_new_list_witness :
  ∃ c lr' σ',
    (c ← WordCollection_new (Some sample_list); _ ← add_item c "D"; mret c)
      sample = (Ok c, σ') ∧
    collections sample !! c = None ∧
    collections σ' !! c = Some (MkWordCollection lr') ∧
    lists σ' !! lr' = Some (["B"; "A"; "C"] ++ ["D"]) ∧
    (["B"; "A"; "C"] ≠ [] → lr' = sample_list) ∧
    (["B"; "A"; "C"] = [] → lr' ≠ sample_list ∧ lists σ' !! sample_list = Some []).
Proof.
  apply (WordCollection_new_list sample sample_list ["B"; "A"; "C"] "D").
  vm_compute. reflexivity.
Defined.

(** What [__main__] prints, with enough fuel for the three items. *)
Example iterator_main_output :
  (main 4 empty).1 = Ok () ∧
  String.concat EmptyString (output (main 4 empty).2) =
"Straight traversal:
A
B
C
Reverse traversal:
C
B
A".
Proof. vm_compute. split; reflexivity. Qed.

End IterFacts.
